(** * CuraEngine: beading strategy and polygon simplification

    A shallow embedding of

    - [src/BeadingStrategy/DistributedBeadingStrategy.cpp] and
    - [src/utils/Simplify.cpp],

    followed by the properties of these functions that the design
    description of the engine relies on.

    Conventions.  [coord_t] is the engine's integer coordinate type; its
    declaration (Coord_t.h) lies outside the two files embedded here, so
    coordinates are integers of [Z] and the largest value of the type,
    which [Simplify::importance] uses as a sentinel, is a parameter of the
    geometry interface below.  Arithmetic is the arithmetic of [Z]: the
    development describes the executions in which no intermediate value
    leaves the range of the type (C++ leaves the others undefined).  The
    division of C++ truncates towards zero and is [Z.quot], written [÷].
    Indices ([size_t]) are natural numbers.  Floating-point numbers are
    the [spec_float] of the Standard Library, and floating-point
    operations are those of its specification of IEEE 754 arithmetic
    ([SpecFloat]): each operation rounds its exact result once, to the
    nearest number of the format, ties to the even mantissa. *)

From Stdlib Require Import ZArith QArith Qpower Lia Bool.
From Stdlib Require Import Floats.SpecFloat.
From stdpp Require Import base option list.

Local Open Scope Z_scope.

(** ** Beading strategy *)

Module Beading.

(** [BeadingStrategy::Beading], the value [compute] returns. *)
Record Beading : Type := mkBeading {
  total_thickness : Z;
  bead_widths : list Z;
  toolpath_locations : list Z;
  left_over : Z
}.

(** Modelled from the spec: the binary floating-point type of
    [wall_transition_threshold].  The declaration of the field
    (BeadingStrategy.h) is missing; the spec calls the field a
    "wall-transition threshold fraction", and C++ evaluates
    [optimal_width * wall_transition_threshold] and the sum it is part of
    in the floating-point type of the field.  That type is an IEEE 754
    binary format: [precision] is the number of bits of a mantissa, the
    implicit one included, and [exponent_max] the exponent of the
    infinities; a format has one bit at least and exponents beyond its
    precision. *)
Class FloatFormat : Type := {
  precision : Z;
  exponent_max : Z;
  precision_positive : 0 < precision;
  exponent_max_above : precision < exponent_max
}.

(** The format of a C++ [double]. *)
Definition binary64 : FloatFormat :=
  {| precision := 53; exponent_max := 1024;
     precision_positive := eq_refl; exponent_max_above := eq_refl |}.

(** The format of a C++ [float]. *)
Definition binary32 : FloatFormat :=
  {| precision := 24; exponent_max := 128;
     precision_positive := eq_refl; exponent_max_above := eq_refl |}.

(** The two configuration fields that the functions of
    DistributedBeadingStrategy.cpp read.  [optimal_width] is a coordinate,
    [wall_transition_threshold] a floating-point number. *)
Record DistributedBeadingStrategy : Type := mkStrategy {
  optimal_width : Z;
  wall_transition_threshold : spec_float
}.

(** Conversion of a coordinate to the floating-point type, as C++ converts
    an integer operand of a floating-point operation: to the nearest
    number of the format. *)
Definition of_coord {F : FloatFormat} (z : Z) : spec_float :=
  binary_normalize precision exponent_max z 0 false.

(** Conversion of a floating-point value to [coord_t], as the [return] of
    a function of result type [coord_t] does it: the fraction is dropped,
    towards zero.  C++ leaves the conversion of an infinity and of a NaN
    undefined, here it is [None]; a finite value is converted to its
    integer part whatever its size, the range of [coord_t] being left out
    as for the integer arithmetic. *)
Definition to_coord (x : spec_float) : option Z :=
  match x with
  | S754_zero _ => Some 0
  | S754_finite s m e =>
      let z := cond_Zopp s (Zpos m) in
      Some (if 0 <=? e then z * 2 ^ e else z ÷ 2 ^ (- e))
  | S754_infinity _ | S754_nan => None
  end.

(** The [for] loop of [compute]: [bead_idx] runs from its current value up
    to [bead_count], each round appends one location.  [fuel] bounds the
    number of rounds; [compute] passes [bead_count] rounds, which is what
    the loop needs when it starts from 0. *)
Fixpoint compute_loop (fuel : nat) (thickness bead_count bead_idx : Z)
    (locations : list Z) : list Z :=
  match fuel with
  | O => locations
  | S fuel' =>
      if bead_idx <? bead_count then
        compute_loop fuel' thickness bead_count (bead_idx + 1)
          (locations ++ [thickness * (bead_idx * 2 + 1) ÷ bead_count ÷ 2])
      else locations
  end.

(** [DistributedBeadingStrategy::compute]. *)
Definition compute (thickness bead_count : Z) : Beading :=
  if 0 <? bead_count then
    {| total_thickness := thickness;
       bead_widths := replicate (Z.to_nat bead_count) (thickness ÷ bead_count);
       toolpath_locations :=
         compute_loop (Z.to_nat bead_count) thickness bead_count 0 [];
       left_over := 0 |}
  else
    {| total_thickness := thickness;
       bead_widths := [];
       toolpath_locations := [];
       left_over := thickness |}.

(** [DistributedBeadingStrategy::getOptimalThickness]. *)
Definition getOptimalThickness (self : DistributedBeadingStrategy)
    (bead_count : Z) : Z :=
  bead_count * optimal_width self.

(** [DistributedBeadingStrategy::getTransitionThickness]: the integer
    product [lower_bead_count * optimal_width] is converted to the
    floating-point type and added to the floating-point product of
    [optimal_width], converted likewise, and the threshold; the sum is
    converted to a coordinate. *)
Definition getTransitionThickness {F : FloatFormat}
    (self : DistributedBeadingStrategy) (lower_bead_count : Z) : option Z :=
  to_coord
    (SFadd precision exponent_max
       (of_coord (lower_bead_count * optimal_width self))
       (SFmul precision exponent_max
          (of_coord (optimal_width self)) (wall_transition_threshold self))).

(** [DistributedBeadingStrategy::getOptimalBeadCount]. *)
Definition getOptimalBeadCount (self : DistributedBeadingStrategy)
    (thickness : Z) : Z :=
  (thickness + optimal_width self ÷ 2) ÷ optimal_width self.

(** The locations of the scenario of the design description,
    1.25, 3.75, 6.25 and 8.75, as rationals. *)
Definition scenario_locations : list Q := [5 # 4; 15 # 4; 25 # 4; 35 # 4]%Q.

(** *** Notions the properties below are stated with *)

(** Neither an infinity nor a NaN. *)
Definition is_finite (x : spec_float) : bool :=
  match x with
  | S754_zero _ | S754_finite _ _ _ => true
  | S754_infinity _ | S754_nan => false
  end.

(** The rational number that a finite floating-point number stands for:
    the mantissa [m], with its sign, times 2 to the exponent [e]. *)
Definition SF2Q (x : spec_float) : Q :=
  match x with
  | S754_finite s m e => (inject_Z (cond_Zopp s (Zpos m)) * 2 ^ e)%Q
  | _ => 0%Q
  end.

(** A finite floating-point number between the integers [lo] and [hi],
    with an exponent that is not positive. *)
Definition between (x : spec_float) (lo hi : Z) : Prop :=
  match x with
  | S754_zero _ => lo <= 0 <= hi
  | S754_finite s m e =>
      e <= 0 /\ lo * 2 ^ (- e) <= cond_Zopp s (Zpos m) <= hi * 2 ^ (- e)
  | S754_infinity _ | S754_nan => False
  end.

(** *** Concrete strategies *)

(** One half, as a [double]: 2^52 * 2^-53. *)
Definition half : spec_float := S754_finite false 4503599627370496 (-53).

(** The largest [double] below 1: (2^53 - 1) * 2^-53. *)
Definition below_one : spec_float := S754_finite false 9007199254740991 (-53).

(** The [double] nearest to 0.29, the value of the literal [0.29]:
    5224175567749775 * 2^-54, a little below 0.29. *)
Definition near_029 : spec_float := S754_finite false 5224175567749775 (-54).

(** A strategy with a bead width of one unit and a threshold of one
    half. *)
Definition unit_strategy : DistributedBeadingStrategy :=
  {| optimal_width := 1; wall_transition_threshold := half |}.

(** A usual configuration: 400 micron beads, threshold one half. *)
Definition usual_strategy : DistributedBeadingStrategy :=
  {| optimal_width := 400; wall_transition_threshold := half |}.

(** 400 micron beads with the largest threshold below 1. *)
Definition late_strategy : DistributedBeadingStrategy :=
  {| optimal_width := 400; wall_transition_threshold := below_one |}.

(** 400 micron beads with a threshold of 0.29. *)
Definition early_strategy : DistributedBeadingStrategy :=
  {| optimal_width := 400; wall_transition_threshold := near_029 |}.

End Beading.

(** ** Polygon simplification *)

Module Simplify.

(** A point with integer coordinates. *)
Record Point : Type := mkPoint { X : Z; Y : Z }.

(** A polygon or polyline is the sequence of its vertices. *)
Abbreviation Polygon := (list Point).

(** Modelled from the spec: the difference of two points and the squared
    length of a vector (IntPoint.h is missing), the "squared-distance"
    utilities of the geometric primitives. *)
Definition psub (a b : Point) : Point :=
  {| X := X a - X b; Y := Y a - Y b |}.

Definition vSize2 (p : Point) : Z := X p * X p + Y p * Y p.

(** The cross product of two vectors: twice the signed area of the
    triangle they span. *)
Definition cross (a b : Point) : Z := X a * Y b - Y a * X b.

#[global] Instance Point_eq_dec : EqDecision Point.
Proof. solve_decision. Defined.

(** What Simplify.cpp uses and does not define: the largest coordinate
    value [std::numeric_limits<coord_t>::max()], the constant
    [min_resolution] of Simplify.h, and the two functions of linearAlg2D.h.
    [lineLineIntersection] returns [None] where the C++ function returns
    [false], and the intersection where it returns [true]. *)
Class Geometry : Type := {
  coord_max : Z;
  min_resolution : Z;
  getDist2FromLine : Point -> Point -> Point -> Z;
  lineLineIntersection : Point -> Point -> Point -> Point -> option Point
}.

(** The settings a [Simplify] object is constructed with. *)
Record Simplify : Type := mkSimplify {
  max_resolution : Z;
  max_deviation : Z;
  max_area_deviation : Z
}.

(** Writing element [i] of a vector.  Outside the vector the C++
    subscript is undefined, here the result is [None]. *)
Definition store {A : Type} (l : list A) (i : nat) (x : A) : option (list A) :=
  if decide (i < length l)%nat then Some (<[i := x]> l) else None.

(** The loop of [nextNotDeleted], entered with the first candidate
    [index].  It leaves with the first index that is not marked.  When
    every flag is set the C++ loop does not end; the model visits [fuel]
    candidates, [nextNotDeleted] lets it visit as many as there are flags,
    and the answer is [None] when all of them were marked. *)
Fixpoint next_loop (fuel size : nat) (to_delete : list bool) (index : nat)
    : option nat :=
  match fuel with
  | O => None
  | S fuel' =>
      match to_delete !! index with
      | None => None
      | Some true => next_loop fuel' size to_delete ((index + 1) mod size)%nat
      | Some false => Some index
      end
  end.

(** [Simplify::nextNotDeleted]. *)
Definition nextNotDeleted (index : nat) (to_delete : list bool) : option nat :=
  let size := length to_delete in
  next_loop size size to_delete ((index + 1) mod size)%nat.

(** The loop of [previousNotDeleted], likewise. *)
Fixpoint previous_loop (fuel size : nat) (to_delete : list bool) (index : nat)
    : option nat :=
  match fuel with
  | O => None
  | S fuel' =>
      match to_delete !! index with
      | None => None
      | Some true =>
          previous_loop fuel' size to_delete ((index + size - 1) mod size)%nat
      | Some false => Some index
      end
  end.

(** [Simplify::previousNotDeleted]. *)
Definition previousNotDeleted (index : nat) (to_delete : list bool) : option nat :=
  let size := length to_delete in
  previous_loop size size to_delete ((index + size - 1) mod size)%nat.

Section Code.
Context `{G : Geometry}.
Variable self : Simplify.

(** [Simplify::importance].  The result is [None] where the C++ function
    reads outside a vector or does not return.  [poly_size - 1] is a
    difference of natural numbers; it differs from the C++ difference for
    an empty polygon only, of which no vertex can be asked for. *)
Definition importance (polygon : Polygon) (to_delete : list bool)
    (index : nat) (is_closed : bool) : option Z :=
  let poly_size := length polygon in
  if negb is_closed && ((index =? 0)%nat || (index =? poly_size - 1)%nat) then
    Some coord_max
  else
    vertex ← polygon !! index;
    before_idx ← previousNotDeleted index to_delete;
    before ← polygon !! before_idx;
    after_idx ← nextNotDeleted index to_delete;
    after ← polygon !! after_idx;
    let deviation2 := getDist2FromLine vertex before after in
    if deviation2 <=? min_resolution * min_resolution then Some deviation2
    else if (max_resolution self * max_resolution self <? vSize2 (psub before vertex))
            && (max_resolution self * max_resolution self <? vSize2 (psub after vertex))
    then Some coord_max
    else Some deviation2.

(** [Simplify::remove].  The polygon and the flags are passed by
    reference in C++; the model returns both.  The two inner [return]s of
    the branch that looks for the lines around the short edge are the inner
    [None] of [edges]. *)
Definition remove (polygon : Polygon) (to_delete : list bool) (vertex : nat)
    (deviation2 : Z) (is_closed : bool) : option (Polygon * list bool) :=
  if deviation2 <=? min_resolution * min_resolution then
    to_delete' ← store to_delete vertex true;
    Some (polygon, to_delete')
  else
    before ← previousNotDeleted vertex to_delete;
    after ← nextNotDeleted vertex to_delete;
    vertex_position ← polygon !! vertex;
    before_position ← polygon !! before;
    after_position ← polygon !! after;
    let length2_before := vSize2 (psub vertex_position before_position) in
    let length2_after := vSize2 (psub vertex_position after_position) in
    if (length2_before <=? max_resolution self * max_resolution self)
       && (length2_after <=? max_resolution self * max_resolution self) then
      to_delete' ← store to_delete vertex true;
      Some (polygon, to_delete')
    else
      edges ←
        (if length2_before <=? length2_after then
           if negb is_closed && (before =? 0)%nat then Some None
           else
             before_before ← previousNotDeleted before to_delete;
             before_from ← polygon !! before_before;
             Some (Some (before_from, before_position,
                         vertex_position, after_position))
         else
           if negb is_closed && (after =? length polygon - 1)%nat then Some None
           else
             after_after ← nextNotDeleted after to_delete;
             after_to ← polygon !! after_after;
             Some (Some (before_position, vertex_position,
                         after_position, after_to)));
      match edges with
      | None => Some (polygon, to_delete)
      | Some (before_from, before_to, after_from, after_to) =>
          match lineLineIntersection before_from before_to after_from after_to with
          | None => Some (polygon, to_delete)
          | Some intersection =>
              if getDist2FromLine intersection before_to after_from
                 <=? max_deviation self * max_deviation self then
                to_delete' ← store to_delete vertex true;
                polygon' ← store polygon
                  (if length2_before <=? length2_after then before else after)
                  intersection;
                Some (polygon', to_delete')
              else Some (polygon, to_delete)
          end
      end.

(** The comparator of the priority queue: [vertex_a] comes after
    [vertex_b] when its importance is larger, or equal with a larger
    index. *)
Definition comparator (vertex_a vertex_b : nat * Z) : bool :=
  (vertex_b.2 <? vertex_a.2)
  || ((vertex_a.2 =? vertex_b.2) && (vertex_b.1 <? vertex_a.1)%nat).

(** The priority queue [by_importance] is the list of its entries in the
    order in which [top]/[pop] deliver them: [top] is the head, [pop]
    leaves the tail, and [emplace] puts an entry behind every entry it
    comes after. *)
Fixpoint emplace (e : nat * Z) (queue : list (nat * Z)) : list (nat * Z) :=
  match queue with
  | [] => [e]
  | x :: queue' =>
      if comparator e x then x :: emplace e queue' else e :: queue
  end.

(** The state of the removal loop of [simplify]. *)
Record State : Type := mkState {
  by_importance : list (nat * Z);
  result : Polygon;
  to_delete : list bool
}.

(** "Add the initial points": the first loop of [simplify], over the
    indices [indices]. *)
Fixpoint add_initial (polygon : Polygon) (flags : list bool) (is_closed : bool)
    (indices : list nat) (queue : list (nat * Z)) : option (list (nat * Z)) :=
  match indices with
  | [] => Some queue
  | i :: indices' =>
      vertex_importance ← importance polygon flags i is_closed;
      add_initial polygon flags is_closed indices'
        (emplace (i, vertex_importance) queue)
  end.

(** One round of the [while] loop of [simplify], for a queue that is not
    empty. *)
Definition simplify_step (is_closed : bool) (st : State) : option State :=
  match by_importance st with
  | [] => None
  | vertex :: popped =>
      vertex_importance ← importance (result st) (to_delete st) vertex.1 is_closed;
      if negb (vertex_importance =? vertex.2) then
        Some {| by_importance := emplace (vertex.1, vertex_importance) popped;
                result := result st;
                to_delete := to_delete st |}
      else if vertex_importance <=? max_deviation self * max_deviation self then
        '(polygon', to_delete') ←
           remove (result st) (to_delete st) vertex.1 vertex_importance is_closed;
        Some {| by_importance := popped;
                result := polygon';
                to_delete := to_delete' |}
      else
        Some {| by_importance := popped;
                result := result st;
                to_delete := to_delete st |}
  end.

(** The [while] loop of [simplify], run for at most [fuel] rounds. *)
Fixpoint simplify_loop (fuel : nat) (is_closed : bool) (st : State)
    : option State :=
  if decide (3 < length (by_importance st))%nat then
    match fuel with
    | O => None
    | S fuel' =>
        st' ← simplify_step is_closed st;
        simplify_loop fuel' is_closed st'
    end
  else Some st.

(** "Now remove the marked vertices in one sweep": the last loop of
    [simplify].  [result] and [to_delete] are read at the same indices. *)
Fixpoint sweep (result : Polygon) (to_delete : list bool) : option Polygon :=
  match result with
  | [] => Some []
  | p :: result' =>
      match to_delete with
      | [] => None
      | deleted :: to_delete' =>
          filtered ← sweep result' to_delete';
          Some (if deleted : bool then filtered else p :: filtered)
      end
  end.

(** Rounds granted to the removal loop of a polygon of [n] vertices.
    [simplify_loop_terminates] below shows that the loop never needs
    more. *)
Definition rounds (n : nat) : nat := n * (n + 2).

(** The state in which [simplify] enters the removal loop: no flag set,
    the queue of the initial importances, and a copy of the polygon. *)
Definition initial_state (polygon : Polygon) (is_closed : bool) : option State :=
  let flags := replicate (length polygon) false in
  queue ← add_initial polygon flags is_closed (seq 0 (length polygon)) [];
  Some {| by_importance := queue; result := polygon; to_delete := flags |}.

(** The part of [simplify] between the two size tests and the final
    sweep.  The result is the state the removal loop ends in. *)
Definition removal (polygon : Polygon) (is_closed : bool) : option State :=
  st ← initial_state polygon is_closed;
  simplify_loop (rounds (length polygon)) is_closed st.

(** The removal loop followed by the final sweep: what [simplify] does
    with a polygon that passes its two size tests. *)
Definition removal_and_sweep (polygon : Polygon) (is_closed : bool)
    : option Polygon :=
  st ← removal polygon is_closed;
  sweep (result st) (to_delete st).

(** [Simplify::simplify]. *)
Definition simplify (polygon : Polygon) (is_closed : bool) : option Polygon :=
  let min_size := if is_closed then 2%nat else 3%nat in
  if decide (length polygon < min_size)%nat then Some []
  else if decide (length polygon = min_size) then Some polygon
  else removal_and_sweep polygon is_closed.

(** [Simplify::polygon]. *)
Definition polygon (polygon : Polygon) : option Polygon :=
  simplify polygon true.

(** *** Notions the properties below are stated with *)

(** [run is_closed st st']: the removal loop, started in [st], passes
    through [st']. *)
Inductive run (is_closed : bool) : State -> State -> Prop :=
  | run_here (st : State) : run is_closed st st
  | run_round (st st' st'' : State) :
      (3 < length (by_importance st))%nat ->
      simplify_step is_closed st = Some st' ->
      run is_closed st' st'' ->
      run is_closed st st''.

(** The squared deviation of vertex [index] from the line through its
    neighbours that are not deleted, as [importance] and [remove] measure
    it. *)
Definition deviation2_at (polygon : Polygon) (flags : list bool) (index : nat)
    : option Z :=
  vertex ← polygon !! index;
  before_idx ← previousNotDeleted index flags;
  before ← polygon !! before_idx;
  after_idx ← nextNotDeleted index flags;
  after ← polygon !! after_idx;
  Some (getDist2FromLine vertex before after).

(** The end points of an open polyline, which [importance] protects. *)
Definition protected (is_closed : bool) (size index : nat) : bool :=
  negb is_closed && ((index =? 0)%nat || (index =? size - 1)%nat).

(** The number of vertices that are not marked. *)
Definition survivors (flags : list bool) : nat :=
  length (filter (fun deleted => deleted = false) flags).

(** The smallest number of vertices of a polygon, and of a polyline. *)
Definition structural_minimum (is_closed : bool) : nat :=
  if is_closed then 3%nat else 2%nat.

(** The noise floor as a property of a whole run: a vertex that is left
    with a deviation of at most [min_resolution] from the line through its
    neighbours is only left because the structural minimum is reached. *)
Definition noise_floor_cleared (polygon : Polygon) (is_closed : bool) : Prop :=
  forall st i d,
    removal polygon is_closed = Some st ->
    to_delete st !! i = Some false ->
    protected is_closed (length polygon) i = false ->
    deviation2_at (result st) (to_delete st) i = Some d ->
    d <= min_resolution * min_resolution ->
    (survivors (to_delete st) <= structural_minimum is_closed)%nat.

End Code.

(** The edges of a contour: consecutive vertices and, for a closed one,
    the last vertex with the first. *)
Definition edges (contour : Polygon) (is_closed : bool) : list (Point * Point) :=
  match contour with
  | [] => []
  | first :: others =>
      zip contour (others ++ (if is_closed then [first] else []))
  end.

(** [near_line p a b d]: the perpendicular distance from [p] to the line
    through [a] and [b] is at most [d]; exact, without rounding.  Where
    [a] and [b] coincide it is the distance to that point. *)
Definition near_line (p a b : Point) (d : Z) : bool :=
  if decide (a = b) then vSize2 (psub p a) <=? d * d
  else cross (psub b a) (psub p a) * cross (psub b a) (psub p a)
       <=? d * d * vSize2 (psub b a).

(** The deviation bound as a property of a whole run: the original
    position of every vertex that the run removes lies within
    [max_deviation] of the line through some edge of the contour that
    [simplify] returns.  (The distance to the edge itself is never smaller
    than the distance to the line through it.) *)
Definition deviation_bound `{G : Geometry} (self : Simplify)
    (polygon : Polygon) (is_closed : bool) : Prop :=
  forall st filtered i p,
    removal self polygon is_closed = Some st ->
    simplify self polygon is_closed = Some filtered ->
    to_delete st !! i = Some true ->
    polygon !! i = Some p ->
    exists e, e ∈ edges filtered is_closed
              /\ near_line p e.1 e.2 (max_deviation self) = true.

(** *** Notions for the removal loop *)

Section LoopNotions.
Context `{G : Geometry}.
Variable self : Simplify.

(** What holds of every state of the removal loop of a polygon of [n]
    vertices: the vectors keep their size, the queue holds an index at
    most once and only indices of vertices that are not deleted, and it is
    not longer than the number of those vertices. *)
Definition loop_invariant (n : nat) (st : State) : Prop :=
  length (result st) = n
  /\ length (to_delete st) = n
  /\ (length (by_importance st) <= survivors (to_delete st))%nat
  /\ NoDup (by_importance st).*1
  /\ Forall (fun e => to_delete st !! e.1 = Some false) (by_importance st).

(** The entries of the queue whose importance is out of date. *)
Definition stale (is_closed : bool) (st : State) : list (nat * Z) :=
  filter (fun e => importance self (result st) (to_delete st) e.1 is_closed
                   <> Some e.2)
         (by_importance st).

(** A bound on the rounds the removal loop still takes. *)
Definition potential (n : nat) (is_closed : bool) (st : State) : nat :=
  length (by_importance st) * (n + 1) + length (stale is_closed st).

(** The end points of the polyline [polygon] are where they were, and not
    deleted. *)
Definition ends_kept (polygon : Polygon) (st : State) : Prop :=
  to_delete st !! 0%nat = Some false
  /\ to_delete st !! (length polygon - 1)%nat = Some false
  /\ result st !! 0%nat = polygon !! 0%nat
  /\ result st !! (length polygon - 1)%nat = polygon !! (length polygon - 1)%nat.

End LoopNotions.

(** *** The geometric primitives, for concrete polygons *)

(** Modelled from the spec: [LinearAlg2D::getDist2FromLine] (linearAlg2D.h
    is missing), "the squared perpendicular distance from the vertex to the
    line through its neighbors": the squared distance from [p] to the line
    through [a] and [b], rounded down to a coordinate; where [a] and [b]
    coincide, the squared distance from [p] to that point. *)
Definition dist2_from_line (p a b : Point) : Z :=
  let vab := psub b a in
  let vap := psub p a in
  if vSize2 vab =? 0 then vSize2 vap
  else (cross vab vap * cross vab vap) ÷ vSize2 vab.

(** Modelled from the spec: [LinearAlg2D::lineLineIntersection]
    (linearAlg2D.h is missing), the point where the line through [a] and
    [b] meets the line through [c] and [d], with coordinates rounded
    towards zero; [None] where "the lines are parallel (no
    intersection)". *)
Definition line_line_intersection (a b c d : Point) : option Point :=
  let l1_delta := psub b a in
  let l2_delta := psub d c in
  let divisor := cross l1_delta l2_delta in
  if divisor =? 0 then None
  else
    let l1_parametric := cross l2_delta (psub a c) in
    Some {| X := X a + (X l1_delta * l1_parametric) ÷ divisor;
            Y := Y a + (Y l1_delta * l1_parametric) ÷ divisor |}.

(** The primitives above, with the range of a 64-bit coordinate and a
    [min_resolution] of 5 units. *)
Definition geometry64 : Geometry :=
  {| coord_max := 2 ^ 63 - 1;
     min_resolution := 5;
     getDist2FromLine := dist2_from_line;
     lineLineIntersection := line_line_intersection |}.

(** *** Concrete polygons *)

Definition pt (x y : Z) : Point := {| X := x; Y := y |}.

(** The near-colinear triple of the design description. *)
Definition triple : Polygon := [pt 0 0; pt 50 1; pt 100 0].

(** A segment. *)
Definition segment : Polygon := [pt 0 0; pt 100 0].

(** A pentagon whose second vertex lies 2 units off the line through its
    neighbours. *)
Definition pentagon : Polygon :=
  [pt 0 0; pt 100 2; pt 200 0; pt 200 200; pt 0 200].

(** A flat arch of height 15 over a base of 800 units, followed by a long
    edge. *)
Definition arch : Polygon :=
  [pt 0 0; pt 100 10; pt 400 15; pt 700 10; pt 800 0; pt 800 300].

(** A square with one corner cut off by a short edge. *)
Definition chamfered : Polygon :=
  [pt 0 0; pt 1000 0; pt 1010 10; pt 1010 1000; pt 0 1000].

(** Settings: [max_resolution], [max_deviation], [max_area_deviation]. *)
Definition fine : Simplify :=
  {| max_resolution := 10; max_deviation := 1; max_area_deviation := 0 |}.

Definition coarse : Simplify :=
  {| max_resolution := 1000; max_deviation := 10; max_area_deviation := 0 |}.

Definition medium : Simplify :=
  {| max_resolution := 100; max_deviation := 20; max_area_deviation := 0 |}.

(** The state in which the removal loop of [pentagon] starts, under
    [geometry64] and settings with a [max_resolution] below 100. *)
Definition pentagon_start : State :=
  {| by_importance :=
       [(1%nat, 4); (0%nat, 2 ^ 63 - 1); (2%nat, 2 ^ 63 - 1);
        (3%nat, 2 ^ 63 - 1); (4%nat, 2 ^ 63 - 1)];
     result := pentagon;
     to_delete := replicate 5 false |}.

(** The state in which the removal loop of [pentagon] ends under
    [fine]. *)
Definition pentagon_end : State :=
  {| by_importance :=
       [(2%nat, 2 ^ 63 - 1); (3%nat, 2 ^ 63 - 1); (4%nat, 2 ^ 63 - 1)];
     result := pentagon;
     to_delete := replicate 5 false |}.

(** The state in which the removal loop of [arch] ends under [coarse]:
    the three vertices of the arch are deleted. *)
Definition arch_end : State :=
  {| by_importance :=
       [(4%nat, 9564); (0%nat, 2 ^ 63 - 1); (5%nat, 2 ^ 63 - 1)];
     result := arch;
     to_delete := [false; true; true; true; false; false] |}.

(** What [simplify] leaves of [arch] under [coarse]. *)
Definition arch_flat : Polygon := [pt 0 0; pt 800 0; pt 800 300].

(** [chamfered] after [remove] has been called for its second vertex:
    the short edge is gone, its other end is in the corner. *)
Definition chamfer_removed : Polygon :=
  [pt 0 0; pt 1000 0; pt 1010 0; pt 1010 1000; pt 0 1000].

(** *** Further notions and polygons *)

(** A queue in the order in which the comparator lets it deliver its
    entries: no entry comes after an entry behind it. *)
Fixpoint ordered (queue : list (nat * Z)) : Prop :=
  match queue with
  | [] => True
  | e :: queue' =>
      Forall (fun later => comparator e later = false) queue' /\ ordered queue'
  end.

(** The square of the design description. *)
Definition square : Polygon := [pt 0 0; pt 0 100; pt 100 100; pt 100 0].

(** The state of the removal loop of [arch] under [coarse] after its first
    round: the top of the arch is deleted. *)
Definition arch_started : State :=
  {| by_importance :=
       [(1%nat, 39); (3%nat, 39); (4%nat, 9564); (0%nat, 2 ^ 63 - 1);
        (5%nat, 2 ^ 63 - 1)];
     result := arch;
     to_delete := [false; false; true; false; false; false] |}.

(** The state in which the removal loop of [arch] starts under
    [coarse]. *)
Definition arch_initial : State :=
  {| by_importance :=
       [(2%nat, 25); (1%nat, 39); (3%nat, 39); (4%nat, 9564);
        (0%nat, 2 ^ 63 - 1); (5%nat, 2 ^ 63 - 1)];
     result := arch;
     to_delete := replicate 6 false |}.

(** What [simplify] leaves of [pentagon] under [medium]. *)
Definition pentagon_cut : Polygon := [pt 0 0; pt 200 0; pt 200 200; pt 0 200].

End Simplify.

(** * Properties *)

(** ** Beading strategy *)

Section BeadingFacts.
Import Beading.

(** On operands that are not negative the truncating division of C++ is
    the ordinary integer division. *)
Lemma quot_is_div (a b : Z) : 0 <= a -> 0 < b -> a ÷ b = a / b.
Proof. intros Ha Hb. apply Z.quot_div_nonneg; lia. Qed.

(** Dividing by [b] and then by 2 is dividing by [2 * b]. *)
Lemma halves_after (a b : Z) : 0 <= a -> 0 < b -> a ÷ b ÷ 2 = a / (2 * b).
Proof.
  intros Ha Hb.
  rewrite Z.quot_quot by lia.
  rewrite quot_is_div by lia. f_equal. lia.
Qed.

(** The loop of [compute] appends one location for each index from
    [bead_idx] up to [bead_count]. *)
Lemma compute_loop_spec (fuel : nat) (thickness bead_count bead_idx : Z)
    (locations : list Z) :
  bead_idx + Z.of_nat fuel = bead_count ->
  compute_loop fuel thickness bead_count bead_idx locations
  = locations
    ++ map (fun i => thickness * (i * 2 + 1) ÷ bead_count ÷ 2)
           (seqZ bead_idx (Z.of_nat fuel)).
Proof.
  revert bead_idx locations.
  induction fuel as [|fuel IH]; intros bead_idx locations Hsum.
  - simpl. now rewrite app_nil_r.
  - cbn [compute_loop].
    destruct (Z.ltb_spec bead_idx bead_count) as [_|Hge]; [|lia].
    rewrite IH by lia.
    rewrite Nat2Z.inj_succ.
    rewrite (seqZ_cons bead_idx (Z.succ (Z.of_nat fuel))) by lia.
    rewrite <- app_assoc. cbn [map app].
    replace (Z.pred (Z.succ (Z.of_nat fuel))) with (Z.of_nat fuel) by lia.
    now replace (Z.succ bead_idx) with (bead_idx + 1) by lia.
Qed.

(** C3, as the code has it: [compute 10 4] gives four beads of width 2,
    no left-over, and the locations 1, 3, 6 and 8: a location is a
    coordinate, and 12.5 / 10, 37.5 / 10, ... are rounded down. *)
Theorem compute_10_4 :
  compute 10 4
  = {| total_thickness := 10;
       bead_widths := [2; 2; 2; 2];
       toolpath_locations := [1; 3; 6; 8];
       left_over := 0 |}.
Proof. reflexivity. Qed.

(** C3, as stated, fails: the locations that [compute 10 4] returns are
    not 1.25, 3.75, 6.25 and 8.75. *)
Lemma compute_10_4_not_fractional :
  ~ Forall2 Qeq (map inject_Z (toolpath_locations (compute 10 4)))
                scenario_locations.
Proof.
  intros H. apply Forall2_cons_1 in H as [H _]. revert H.
  unfold Qeq. cbn. lia.
Qed.

(** C4: for a thickness that is not negative and a positive bead count,
    [compute] returns [bead_count] widths, each the integer quotient
    [thickness / bead_count], no left-over, and [bead_count] locations, the
    one of index [i] being [thickness * (2 i + 1) / (2 * bead_count)]:
    dividing by [bead_count] and then by 2, as the code does, gives that
    quotient. *)
Theorem compute_tiles (thickness bead_count : Z) :
  0 <= thickness -> 0 < bead_count ->
  let b := compute thickness bead_count in
  bead_widths b = replicate (Z.to_nat bead_count) (thickness / bead_count)
  /\ left_over b = 0
  /\ length (toolpath_locations b) = Z.to_nat bead_count
  /\ (forall i, 0 <= i < bead_count ->
        toolpath_locations b !! Z.to_nat i
        = Some (thickness * (2 * i + 1) / (2 * bead_count))).
Proof.
  intros Ht Hb. unfold compute.
  destruct (Z.ltb_spec 0 bead_count) as [_|]; [|lia]. cbn.
  rewrite compute_loop_spec by lia. rewrite Z2Nat.id by lia. cbn [app].
  repeat split.
  - f_equal. apply quot_is_div; lia.
  - rewrite length_map, length_seqZ. reflexivity.
  - intros i Hi. rewrite list_lookup_fmap.
    rewrite lookup_seqZ_lt by lia. cbn. f_equal.
    rewrite Z2Nat.id by lia. rewrite halves_after by nia.
    f_equal. lia.
Qed.

(** [compute_tiles] at the scenario of the design description. *)
Lemma compute_tiles_witness :
  let b := compute 10 4 in
  bead_widths b = replicate (Z.to_nat 4) (10 / 4)
  /\ left_over b = 0
  /\ length (toolpath_locations b) = Z.to_nat 4
  /\ (forall i, 0 <= i < 4 ->
        toolpath_locations b !! Z.to_nat i = Some (10 * (2 * i + 1) / (2 * 4))).
Proof. exact (compute_tiles 10 4 ltac:(lia) ltac:(lia)). Defined.

(** C5: with a positive [optimal_width], the optimal bead count of the
    optimal thickness of [n] beads is [n], for every [n] that is not
    negative. *)
Theorem optimal_round_trip (self : DistributedBeadingStrategy) (n : Z) :
  0 < optimal_width self -> 0 <= n ->
  getOptimalBeadCount self (getOptimalThickness self n) = n.
Proof.
  intros Hw Hn. unfold getOptimalBeadCount, getOptimalThickness.
  set (w := optimal_width self) in *.
  assert (Hhalf : 0 <= w ÷ 2 < w).
  { rewrite quot_is_div by lia. split.
    - apply Z.div_pos; lia.
    - apply Z.div_lt_upper_bound; lia. }
  rewrite quot_is_div by nia.
  symmetry. apply Z.div_unique with (r := w ÷ 2); lia.
Qed.

(** [optimal_round_trip] for three beads of 400 units. *)
Lemma optimal_round_trip_witness :
  getOptimalBeadCount usual_strategy (getOptimalThickness usual_strategy 3) = 3.
Proof.
  exact (optimal_round_trip usual_strategy 3 ltac:(cbn; lia) ltac:(lia)).
Defined.

End BeadingFacts.

(** ** Floating-point arithmetic *)

(** *** Rounding *)

Section Rounding.

(** The iteration of the Standard Library's specification, counted in
    natural numbers. *)
Lemma iter_pos_nat {A : Type} (f : A -> A) (p : positive) (x : A) :
  SpecFloat.iter_pos f p x = Nat.iter (Pos.to_nat p) f x.
Proof.
  revert x. induction p as [p IH|p IH|]; intros x; cbn [SpecFloat.iter_pos].
  - rewrite !IH, Pos2Nat.inj_xI.
    replace (S (2 * Pos.to_nat p)) with (Pos.to_nat p + (Pos.to_nat p + 1))%nat
      by lia.
    rewrite !Nat.iter_add. reflexivity.
  - rewrite !IH, Pos2Nat.inj_xO.
    replace (2 * Pos.to_nat p)%nat with (Pos.to_nat p + Pos.to_nat p)%nat by lia.
    rewrite Nat.iter_add. reflexivity.
  - reflexivity.
Qed.

(** One shift to the right halves the mantissa, keeps the bit that falls
    out as the rounding bit and collects the earlier ones in the sticky
    bit. *)
Lemma shr_1_spec (m : Z) (r s : bool) :
  0 <= m ->
  shr_1 {| shr_m := m; shr_r := r; shr_s := s |}
  = {| shr_m := m / 2; shr_r := Z.odd m; shr_s := r || s |}.
Proof.
  intros Hm. unfold shr_1.
  destruct m as [|[p|p|]|p]; try lia; try reflexivity.
  - f_equal. rewrite (Pos2Z.inj_xI p). apply Z.div_unique with (r := 1); lia.
  - f_equal. rewrite (Pos2Z.inj_xO p). apply Z.div_unique with (r := 0); lia.
Qed.

(** [k] shifts divide by [2 ^ k]; where the division is exact, no bit
    that fell out is set. *)
Lemma shr_iter (m : Z) (k : nat) :
  0 <= m ->
  exists r s,
    Nat.iter k shr_1 {| shr_m := m; shr_r := false; shr_s := false |}
    = {| shr_m := m / 2 ^ Z.of_nat k; shr_r := r; shr_s := s |}
    /\ (m mod 2 ^ Z.of_nat k = 0 -> r = false /\ s = false).
Proof.
  intros Hm. induction k as [|k (r & s & Hk & Hexact)].
  - exists false, false. cbn. rewrite Z.div_1_r. auto.
  - rewrite Nat.iter_succ, Hk.
    rewrite shr_1_spec by (apply Z.div_pos; lia).
    eexists _, _. split.
    + f_equal. rewrite Nat2Z.inj_succ, Z.pow_succ_r by lia.
      rewrite Z.div_div by lia. f_equal. lia.
    + rewrite Nat2Z.inj_succ, Z.pow_succ_r by lia. intros Hmod.
      assert (H2 : 0 < 2 ^ Z.of_nat k) by (apply Z.pow_pos_nonneg; lia).
      apply Z.mod_divide in Hmod; [|lia]. destruct Hmod as [c Hc].
      assert (Hq : m / 2 ^ Z.of_nat k = c * 2 /\ m mod 2 ^ Z.of_nat k = 0).
      { split.
        - symmetry. apply Z.div_unique with (r := 0); lia.
        - symmetry. apply Z.mod_unique with (q := c * 2); lia. }
      destruct Hq as [Hq Hr]. destruct (Hexact Hr) as [-> ->].
      rewrite Hq. split; [|reflexivity].
      rewrite Z.mul_comm, Z.odd_mul. reflexivity.
Qed.

(** The number of binary digits of a mantissa. *)
Lemma digits2_bounds (m : positive) :
  2 ^ (Zpos (digits2_pos m) - 1) <= Zpos m < 2 ^ Zpos (digits2_pos m).
Proof.
  induction m as [m IH|m IH|]; cbn [digits2_pos].
  - rewrite Pos2Z.inj_succ, (Pos2Z.inj_xI m).
    replace (Z.succ (Z.pos (digits2_pos m)) - 1) with (Z.pos (digits2_pos m))
      by lia.
    rewrite Z.pow_succ_r by lia.
    assert (2 ^ Z.pos (digits2_pos m) = 2 * 2 ^ (Z.pos (digits2_pos m) - 1)).
    { rewrite <- Z.pow_succ_r by lia. f_equal. lia. }
    lia.
  - rewrite Pos2Z.inj_succ, (Pos2Z.inj_xO m).
    replace (Z.succ (Z.pos (digits2_pos m)) - 1) with (Z.pos (digits2_pos m))
      by lia.
    rewrite Z.pow_succ_r by lia.
    assert (2 ^ Z.pos (digits2_pos m) = 2 * 2 ^ (Z.pos (digits2_pos m) - 1)).
    { rewrite <- Z.pow_succ_r by lia. f_equal. lia. }
    lia.
  - cbn. lia.
Qed.

Lemma digits2_le (m : positive) (k : Z) :
  Zpos m < 2 ^ k -> Zpos (digits2_pos m) <= k.
Proof.
  intros Hm. pose proof (digits2_bounds m) as [Hlo _].
  destruct (Z.le_gt_cases (Zpos (digits2_pos m)) k) as [|Hgt]; [assumption|].
  assert (2 ^ k <= 2 ^ (Zpos (digits2_pos m) - 1)).
  { destruct (Z.le_gt_cases 0 k).
    - apply Z.pow_le_mono_r; lia.
    - rewrite Z.pow_neg_r by lia. apply Z.pow_nonneg. lia. }
  lia.
Qed.

(** A shift to the right by [n] places, of an exact mantissa. *)
Lemma shr_spec (m e n : Z) :
  0 <= m ->
  exists mrs,
    shr {| shr_m := m; shr_r := false; shr_s := false |} e n
    = (mrs, e + Z.max 0 n)
    /\ shr_m mrs = m / 2 ^ Z.max 0 n
    /\ (m mod 2 ^ Z.max 0 n = 0 -> loc_of_shr_record mrs = loc_Exact).
Proof.
  intros Hm. unfold shr. destruct n as [|p|p].
  - eexists. split; [f_equal; lia|]. cbn. rewrite Z.div_1_r. auto.
  - rewrite iter_pos_nat.
    destruct (shr_iter m (Pos.to_nat p) Hm) as (r & s & -> & Hexact).
    rewrite positive_nat_Z in Hexact |- *.
    eexists. split; [f_equal; lia|]. cbn [shr_m].
    replace (Z.max 0 (Z.pos p)) with (Z.pos p) by lia.
    split; [reflexivity|]. intros Hmod. now destruct (Hexact Hmod) as [-> ->].
  - eexists. split; [f_equal; lia|]. cbn. rewrite Z.div_1_r. auto.
Qed.

(** Rounding to nearest keeps the mantissa or adds one to it, and keeps
    it where nothing was cut off. *)
Lemma round_nearest_even_spec (q : Z) (l : location) :
  (round_nearest_even q l = q \/ round_nearest_even q l = q + 1)
  /\ (l = loc_Exact -> round_nearest_even q l = q).
Proof.
  unfold round_nearest_even.
  destruct l as [|[| |]]; try destruct (Z.even q); split; auto; discriminate.
Qed.

Lemma pow2_pos (k : Z) : 0 <= k -> 0 < 2 ^ k.
Proof. intros. apply Z.pow_pos_nonneg; lia. Qed.

Lemma pow2_split (a b : Z) : 0 <= a -> 0 <= b -> 2 ^ (a + b) = 2 ^ a * 2 ^ b.
Proof. intros. apply Z.pow_add_r; lia. Qed.

(** Shifting a mantissa to the left. *)
Lemma iter_xO (m d : positive) :
  Zpos (Pos.iter xO m d) = Zpos m * 2 ^ Zpos d.
Proof.
  induction d as [|d IH] using Pos.peano_ind.
  - cbn [Pos.iter]. rewrite (Pos2Z.inj_xO m). change (2 ^ 1) with 2. lia.
  - rewrite Pos.iter_succ, (Pos2Z.inj_xO (Pos.iter xO m d)), IH.
    rewrite Pos2Z.inj_succ, Z.pow_succ_r by lia. lia.
Qed.

(** Aligning a number to an exponent that is not larger keeps its
    value. *)
Lemma shl_align_spec (m : positive) (e e' : Z) :
  exists mz,
    shl_align m e e' = (mz, Z.min e e')
    /\ Zpos mz = Zpos m * 2 ^ (e - Z.min e e').
Proof.
  unfold shl_align. destruct (e' - e) as [|d|d] eqn:Hd.
  - exists m. replace (Z.min e e') with e by lia.
    rewrite Z.sub_diag, Z.pow_0_r. split; [reflexivity|lia].
  - exists m. replace (Z.min e e') with e by lia.
    rewrite Z.sub_diag, Z.pow_0_r. split; [reflexivity|lia].
  - exists (Pos.iter xO m d). replace (Z.min e e') with e' by lia.
    split; [reflexivity|]. rewrite iter_xO. f_equal. f_equal. lia.
Qed.

Variables prec emax : Z.
Hypothesis Hprec : 0 < prec.
Hypothesis Hemax : prec < emax.

(** Rounding the number [m * 2 ^ e], positive and below [2 ^ prec], to
    the format: the result is [M * 2 ^ E] for an exponent [E] that is not
    positive, and every integer bound on the number, from below or from
    above, is a bound on the result. *)
Lemma binary_round_aux_spec (s : bool) (m : positive) (e : Z) :
  e <= 0 -> Zpos m < 2 ^ (prec - e) ->
  exists M E,
    e <= E <= 0
    /\ (forall k, k * 2 ^ (- e) <= Zpos m -> k * 2 ^ (- E) <= M)
    /\ (forall k, Zpos m <= k * 2 ^ (- e) -> M <= k * 2 ^ (- E))
    /\ ((M = 0 /\ binary_round_aux prec emax s (Zpos m) e loc_Exact = S754_zero s)
        \/ exists m' e',
             binary_round_aux prec emax s (Zpos m) e loc_Exact = S754_finite s m' e'
             /\ Zpos m' * 2 ^ (e' - E) = M
             /\ (e' = E \/ (e' = E + 1 /\ M = 2 ^ prec))).
Proof.
  intros He Hm.
  pose proof (digits2_bounds m) as [Hdlo Hdhi].
  pose proof (digits2_le m _ Hm) as Hd.
  set (d := Zpos (digits2_pos m)) in *.
  unfold binary_round_aux, shr_fexp.
  cbn [shr_record_of_loc Zdigits2]. fold d.
  set (n1 := fexp prec emax (d + e) - e).
  destruct (shr_spec (Zpos m) e n1 ltac:(lia)) as (mrs1 & -> & Hq & Hexact).
  set (E := e + Z.max 0 n1).
  assert (HE : e <= E <= 0 /\ d + e - prec <= E /\ emin prec emax <= E).
  { unfold E, n1, fexp, emin. lia. }
  destruct HE as (HE & HdE & HminE).
  set (k1 := Z.max 0 n1) in *.
  assert (Hk1 : 0 <= k1 /\ E - e = k1 /\ - e = - E + k1) by (unfold E, k1; lia).
  destruct Hk1 as (Hk1 & HEe & Hsplit).
  pose proof (pow2_pos k1 Hk1) as Hp1.
  pose proof (pow2_pos (- E) ltac:(lia)) as HpE.
  set (q := Zpos m / 2 ^ k1) in *.
  pose proof (Z.div_mod (Zpos m) (2 ^ k1) ltac:(lia)) as Hdm.
  pose proof (Z.mod_pos_bound (Zpos m) (2 ^ k1) Hp1) as Hmb.
  fold q in Hdm.
  destruct (round_nearest_even_spec (shr_m mrs1) (loc_of_shr_record mrs1))
    as [Hround Hrexact].
  rewrite Hq in Hround, Hrexact |- *.
  set (M := round_nearest_even q (loc_of_shr_record mrs1)) in *.
  assert (HM : M = q \/ (M = q + 1 /\ Zpos m mod 2 ^ k1 <> 0)).
  { destruct Hround as [?|?]; [now left|].
    destruct (Z.eq_dec (Zpos m mod 2 ^ k1) 0) as [Hz|Hnz]; [|now right].
    left. apply Hrexact. now apply Hexact. }
  assert (Hq0 : 0 <= q) by (apply Z.div_pos; lia).
  assert (HqP : q < 2 ^ prec).
  { apply Z.div_lt_upper_bound; [lia|].
    rewrite <- pow2_split by lia.
    apply Z.lt_le_trans with (1 := Hdhi). apply Z.pow_le_mono_r; lia. }
  assert (HMP : 0 <= M <= 2 ^ prec) by lia.
  set (n2 := fexp prec emax (Zdigits2 M + E) - E).
  assert (Hn2 : n2 <= 0 \/ (n2 = 1 /\ M = 2 ^ prec)).
  { unfold n2. destruct M as [|M'|M'] eqn:HM'; [left|..|lia].
    - cbn [Zdigits2]. unfold fexp. lia.
    - cbn [Zdigits2].
      pose proof (digits2_bounds M') as [Hlo' Hhi'].
      assert (Zpos (digits2_pos M') <= prec + 1).
      { apply digits2_le. apply Z.le_lt_trans with (2 ^ prec); [lia|].
        apply Z.pow_lt_mono_r; lia. }
      destruct (Z.eq_dec (Zpos (digits2_pos M')) (prec + 1)) as [Heq|Hne].
      + right. rewrite Heq in Hlo' |- *.
        replace (prec + 1 - 1) with prec in Hlo' by lia.
        unfold fexp. split; lia.
      + left. unfold fexp. lia. }
  destruct (shr_spec M E n2 ltac:(lia)) as (mrs2 & -> & Hq2 & _).
  exists M, E. split; [exact HE|]. split; [|split].
  - intros k Hk. rewrite Hsplit, pow2_split in Hk by lia.
    assert (k * 2 ^ (- E) <= q).
    { apply Z.div_le_lower_bound; lia. }
    lia.
  - intros k Hk. rewrite Hsplit, pow2_split in Hk by lia.
    assert (q <= k * 2 ^ (- E)).
    { apply Z.div_le_upper_bound; lia. }
    destruct HM as [->|[-> Hnz]]; [assumption|].
    assert (q <> k * 2 ^ (- E)); [|lia].
    intros Heq. apply Hnz. nia.
  - rewrite Hq2.
    destruct Hn2 as [Hn2|[Hn2 HM2]].
    + replace (Z.max 0 n2) with 0 by lia.
      rewrite Z.pow_0_r, Z.div_1_r, Z.add_0_r.
      destruct M as [|M'|M'] eqn:HM'; [now left| |lia].
      right. exists M', E.
      destruct (Z.leb_spec E (emax - prec)); [|lia].
      rewrite Z.sub_diag, Z.pow_0_r. split_and!; auto. lia.
    + replace (Z.max 0 n2) with 1 by lia. change (2 ^ 1) with 2.
      assert (Hhalf : M / 2 = 2 ^ (prec - 1) /\ M = 2 ^ (prec - 1) * 2).
      { assert (M = 2 ^ (prec - 1) * 2).
        { rewrite HM2, Z.mul_comm, <- Z.pow_succ_r by lia. f_equal. lia. }
        split; [|assumption]. symmetry.
        apply Z.div_unique with (r := 0); lia. }
      destruct Hhalf as [Hhalf Hdouble]. rewrite Hhalf.
      pose proof (pow2_pos (prec - 1) ltac:(lia)) as Hpp.
      destruct (2 ^ (prec - 1)) as [|h|h] eqn:Hh; [lia| |lia].
      right. exists h, (E + 1).
      destruct (Z.leb_spec (E + 1) (emax - prec)); [|lia].
      replace (E + 1 - E) with 1 by lia. change (2 ^ 1) with 2.
      split_and!; auto.
Qed.

End Rounding.

(** *** Operations on numbers between two integers *)

Section Between.
Import Beading.
Context {F : FloatFormat}.

Lemma pow2_precision : 0 < 2 ^ precision.
Proof. apply pow2_pos. pose proof precision_positive. lia. Qed.

(** Rounding keeps a number between the integers it lies between. *)
Lemma binary_round_aux_between (s : bool) (m : positive) (e lo hi : Z) :
  e <= 0 -> - 2 ^ precision < lo -> hi < 2 ^ precision ->
  lo * 2 ^ (- e) <= cond_Zopp s (Zpos m) <= hi * 2 ^ (- e) ->
  between (binary_round_aux precision exponent_max s (Zpos m) e loc_Exact)
    lo hi.
Proof.
  intros He Hlow Hhigh [Hlo Hup].
  pose proof precision_positive as Hprec.
  pose proof (pow2_pos (- e) ltac:(lia)) as Hpe.
  assert (Hm : Zpos m < 2 ^ (precision - e)).
  { replace (precision - e) with (precision + - e) by lia.
    rewrite pow2_split by lia. destruct s; cbn [cond_Zopp] in *; nia. }
  destruct (binary_round_aux_spec precision exponent_max precision_positive
              exponent_max_above s m e He Hm)
    as (M & E & HE & Hlower & Hupper & Hres).
  pose proof (pow2_pos (- E) ltac:(lia)) as HpE.
  assert (HM : lo * 2 ^ (- E) <= cond_Zopp s M <= hi * 2 ^ (- E)).
  { destruct s; cbn [cond_Zopp] in *.
    - pose proof (Hlower (- hi) ltac:(lia)).
      pose proof (Hupper (- lo) ltac:(lia)). lia.
    - split; [apply Hlower|apply Hupper]; lia. }
  destruct Hres as [[-> ->]|(m' & e' & -> & HMeq & He')].
  - cbn [between]. destruct s; cbn [cond_Zopp] in HM; nia.
  - cbn [between]. destruct He' as [->|[-> HMP]].
    + rewrite Z.sub_diag, Z.pow_0_r in HMeq. split; [lia|].
      replace (Zpos m') with M by lia. exact HM.
    + replace (E + 1 - E) with 1 in HMeq by lia. change (2 ^ 1) with 2 in HMeq.
      assert (HE0 : E < 0).
      { destruct (Z.eq_dec E 0) as [->|]; [|lia].
        destruct s; cbn in HM; lia. }
      split; [lia|].
      assert (Hsplit : 2 ^ (- E) = 2 ^ (- (E + 1)) * 2).
      { rewrite Z.mul_comm, <- Z.pow_succ_r by lia. f_equal. lia. }
      rewrite Hsplit in HM. destruct s; cbn [cond_Zopp] in *; lia.
Qed.

Lemma binary_round_between (s : bool) (m : positive) (e lo hi : Z) :
  e <= 0 -> - 2 ^ precision < lo -> hi < 2 ^ precision ->
  lo * 2 ^ (- e) <= cond_Zopp s (Zpos m) <= hi * 2 ^ (- e) ->
  between (binary_round precision exponent_max s m e) lo hi.
Proof.
  intros He Hlow Hhigh [Hlo Hup]. unfold binary_round.
  destruct (shl_align_spec m e
              (fexp precision exponent_max (Zpos (digits2_pos m) + e)))
    as (mz & -> & Hmz).
  set (e' := Z.min e _) in *.
  assert (He' : e' <= e) by (unfold e'; lia).
  pose proof (pow2_pos (e - e') ltac:(lia)) as Hp.
  assert (Hsplit : 2 ^ (- e') = 2 ^ (- e) * 2 ^ (e - e')).
  { rewrite <- pow2_split by lia. f_equal. lia. }
  apply binary_round_aux_between; [lia|assumption|assumption|].
  rewrite Hsplit. destruct s; cbn [cond_Zopp] in *; rewrite Hmz; nia.
Qed.

(** A coordinate between [- 2 ^ precision] and [2 ^ precision] is
    converted without error. *)
Lemma of_coord_between (k : Z) :
  - 2 ^ precision < k < 2 ^ precision -> between (of_coord k) k k.
Proof.
  intros Hk. unfold of_coord, binary_normalize.
  destruct k as [|k|k]; [cbn; lia|..];
    (apply binary_round_between; [lia|lia|lia|]; cbn; lia).
Qed.

Lemma between_weaken (x : spec_float) (lo hi lo' hi' : Z) :
  between x lo hi -> lo' <= lo -> hi <= hi' -> between x lo' hi'.
Proof.
  destruct x as [s|s| |s m e]; cbn; try tauto; [lia|].
  intros (He & Hlo & Hhi) Hl Hh.
  pose proof (pow2_pos (- e) ltac:(lia)). split; [assumption|]. nia.
Qed.

Lemma between_both (x : spec_float) (l1 h1 l2 h2 : Z) :
  between x l1 h1 -> between x l2 h2 -> between x l1 h2.
Proof.
  destruct x as [s|s| |s m e]; cbn; try tauto; lia.
Qed.

(** The sum of two numbers lies between the sums of their bounds. *)
Lemma SFadd_between (a x : spec_float) (la ha lx hx : Z) :
  between a la ha -> between x lx hx ->
  - 2 ^ precision < la + lx -> ha + hx < 2 ^ precision ->
  between (SFadd precision exponent_max a x) (la + lx) (ha + hx).
Proof.
  intros Ha Hx Hlow Hhigh.
  destruct a as [sa|sa| |sa ma ea]; try contradiction;
  destruct x as [sx|sx| |sx mx ex]; try contradiction.
  - cbn in Ha, Hx. destruct sa, sx; cbn; lia.
  - cbn [SFadd]. apply (between_weaken _ lx hx); [assumption|cbn in Ha; lia..].
  - cbn [SFadd]. apply (between_weaken _ la ha); [assumption|cbn in Hx; lia..].
  - destruct Ha as (Hea & Hal & Hah). destruct Hx as (Hex & Hxl & Hxh).
    cbn [SFadd].
    destruct (shl_align_spec ma ea (Z.min ea ex)) as (ma' & -> & Hma).
    destruct (shl_align_spec mx ex (Z.min ea ex)) as (mx' & -> & Hmx).
    cbn [fst].
    replace (Z.min ea (Z.min ea ex)) with (Z.min ea ex) in * by lia.
    replace (Z.min ex (Z.min ea ex)) with (Z.min ea ex) in * by lia.
    set (ez := Z.min ea ex) in *.
    assert (Hez : ez <= ea /\ ez <= ex) by (unfold ez; lia).
    pose proof (pow2_pos (ea - ez) ltac:(lia)).
    pose proof (pow2_pos (ex - ez) ltac:(lia)).
    assert (Hsa : 2 ^ (- ez) = 2 ^ (- ea) * 2 ^ (ea - ez)).
    { rewrite <- pow2_split by lia. f_equal. lia. }
    assert (Hsx : 2 ^ (- ez) = 2 ^ (- ex) * 2 ^ (ex - ez)).
    { rewrite <- pow2_split by lia. f_equal. lia. }
    assert (Ha' : la * 2 ^ (- ez) <= cond_Zopp sa (Z.pos ma')
                  <= ha * 2 ^ (- ez)).
    { rewrite Hsa. destruct sa; cbn [cond_Zopp] in *; rewrite Hma; nia. }
    assert (Hx' : lx * 2 ^ (- ez) <= cond_Zopp sx (Z.pos mx')
                  <= hx * 2 ^ (- ez)).
    { rewrite Hsx. destruct sx; cbn [cond_Zopp] in *; rewrite Hmx; nia. }
    clear Hsa Hsx Hma Hmx Hal Hah Hxl Hxh.
    unfold binary_normalize.
    destruct (cond_Zopp sa (Z.pos ma') + cond_Zopp sx (Z.pos mx'))
      as [|p|p] eqn:Hsum.
    + cbn [between].
      pose proof (pow2_pos (- ez) ltac:(lia)). nia.
    + apply binary_round_between; [lia|assumption|assumption|].
      cbn [cond_Zopp]. lia.
    + apply binary_round_between; [lia|assumption|assumption|].
      cbn [cond_Zopp]. lia.
Qed.

(** Adding to zero changes nothing that the conversion to a coordinate
    sees. *)
Lemma SFadd_zero_l (x : spec_float) (lo hi : Z) :
  between x lo hi ->
  to_coord (SFadd precision exponent_max (S754_zero false) x) = to_coord x.
Proof.
  destruct x as [[|]|s| |s m e]; cbn; try tauto.
Qed.

(** The conversion to a coordinate keeps a number between the integers
    it lies between. *)
Lemma to_coord_between (x : spec_float) (lo hi : Z) :
  between x lo hi -> exists v, to_coord x = Some v /\ lo <= v <= hi.
Proof.
  destruct x as [s|s| |s m e]; cbn [between to_coord]; try tauto.
  - intros H. exists 0. split; [reflexivity|]. lia.
  - intros (He & Hlo & Hhi).
    pose proof (pow2_pos (- e) ltac:(lia)) as Hp.
    eexists. split; [reflexivity|]. cbv zeta.
    destruct (Z.leb_spec 0 e).
    + replace e with 0 in * by lia. cbn in Hlo, Hhi |- *. lia.
    + split.
      * apply Z.quot_le_lower_bound; lia.
      * apply Z.quot_le_upper_bound; lia.
Qed.

(** Of a number that is not negative, it returns the integer part. *)
Lemma to_coord_floor (x : spec_float) (lo hi : Z) :
  between x lo hi -> 0 <= lo ->
  exists v, to_coord x = Some v /\ lo <= v <= hi /\ between x v (v + 1).
Proof.
  intros Hx Hlo.
  destruct (to_coord_between x lo hi Hx) as (v & Hv & Hb).
  exists v. split; [exact Hv|]. split; [exact Hb|].
  destruct x as [s|s| |s m e]; cbn [between to_coord] in *; try tauto.
  - injection Hv as <-. lia.
  - destruct Hx as (He & Hl & Hh).
    pose proof (pow2_pos (- e) ltac:(lia)) as Hp.
    destruct s; cbn [cond_Zopp] in *; [nia|].
    split; [assumption|]. injection Hv as <-.
    destruct (Z.leb_spec 0 e).
    + replace e with 0 in * by lia. cbn. lia.
    + rewrite Z.quot_div_nonneg by lia.
      pose proof (Z.div_mod (Zpos m) (2 ^ (- e)) ltac:(lia)) as Hdm.
      pose proof (Z.mod_pos_bound (Zpos m) (2 ^ (- e)) Hp) as Hmb.
      nia.
Qed.

(** *** The value of a floating-point number *)

Lemma Qpow2_scale (e : Z) : e <= 0 -> (2 ^ e * inject_Z (2 ^ (- e)) == 1)%Q.
Proof.
  intros He. rewrite Zpower_Qpower by lia. rewrite Qpower_opp.
  apply Qmult_inv_r. apply Qpower_not_0. discriminate.
Qed.

Lemma scaled_le (c m e b : Z) :
  e <= 0 -> (inject_Z c * (inject_Z m * 2 ^ e) <= inject_Z b)%Q ->
  c * m <= b * 2 ^ (- e).
Proof.
  intros He H. pose proof (pow2_pos (- e) ltac:(lia)) as Hp.
  apply (Qmult_le_compat_r _ _ (inject_Z (2 ^ (- e)))) in H;
    [|change 0%Q with (inject_Z 0); rewrite <- Zle_Qle; lia].
  rewrite <- !Qmult_assoc, (Qpow2_scale e He), Qmult_1_r in H.
  now rewrite Zle_Qle, !inject_Z_mult.
Qed.

Lemma scaled_ge (c m e a : Z) :
  e <= 0 -> (inject_Z a <= inject_Z c * (inject_Z m * 2 ^ e))%Q ->
  a * 2 ^ (- e) <= c * m.
Proof.
  intros He H. pose proof (pow2_pos (- e) ltac:(lia)) as Hp.
  apply (Qmult_le_compat_r _ _ (inject_Z (2 ^ (- e)))) in H;
    [|change 0%Q with (inject_Z 0); rewrite <- Zle_Qle; lia].
  rewrite <- !Qmult_assoc, (Qpow2_scale e He), Qmult_1_r in H.
  now rewrite Zle_Qle, !inject_Z_mult.
Qed.

(** With an exponent that is not negative the value is an integer. *)
Lemma scaled_integer (c m e : Z) :
  0 <= e ->
  (inject_Z c * (inject_Z m * 2 ^ e) == inject_Z (c * m * 2 ^ e))%Q.
Proof.
  intros He. change (2 ^ e)%Q with (inject_Z 2 ^ e)%Q.
  rewrite <- Zpower_Qpower by lia. now rewrite !inject_Z_mult, Qmult_assoc.
Qed.

(** A number from 0 to 1 has an exponent that is not positive. *)
Lemma fraction_exponent (t : spec_float) (s : bool) (m : positive) (e : Z) :
  (0 <= SF2Q t <= 1)%Q -> t = S754_finite s m e -> e <= 0.
Proof.
  intros [H0 H1] ->. cbn [SF2Q] in *.
  destruct (Z.le_gt_cases e 0) as [|He]; [assumption|exfalso].
  rewrite <- (Qmult_1_l (_ * _)) in H0, H1.
  change 1%Q with (inject_Z 1) in H0, H1.
  rewrite scaled_integer in H0, H1 by lia.
  change 0%Q with (inject_Z 0) in H0. rewrite <- Zle_Qle in H0, H1.
  assert (2 ^ 1 <= 2 ^ e) by (apply Z.pow_le_mono_r; lia).
  change (2 ^ 1) with 2 in *. destruct s; cbn [cond_Zopp] in *; nia.
Qed.

(** So has a number of the format whose product with a positive integer
    stays within [2 ^ precision]. *)
Lemma valid_exponent (w lo hi : Z) (t : spec_float) (s : bool) (m : positive)
    (e : Z) :
  0 < w -> - 2 ^ precision < lo -> hi < 2 ^ precision ->
  valid_binary precision exponent_max t = true ->
  (inject_Z lo <= inject_Z w * SF2Q t <= inject_Z hi)%Q ->
  t = S754_finite s m e -> e <= 0.
Proof.
  intros Hw Hlow Hhigh Hvalid [Hlo Hhi] ->. cbn [SF2Q valid_binary] in *.
  destruct (Z.le_gt_cases e 0) as [|He]; [assumption|exfalso].
  pose proof precision_positive as Hprec.
  pose proof exponent_max_above as Hemax.
  apply andb_prop in Hvalid as [Hcanonical _].
  unfold canonical_mantissa, fexp, emin in Hcanonical.
  apply Z.eqb_eq in Hcanonical.
  assert (Hdigits : Zpos (digits2_pos m) = precision) by lia.
  pose proof (digits2_bounds m) as [Hm _]. rewrite Hdigits in Hm.
  rewrite scaled_integer in Hlo, Hhi by lia.
  rewrite <- Zle_Qle in Hlo, Hhi.
  assert (H2 : 2 ^ 1 <= 2 ^ e) by (apply Z.pow_le_mono_r; lia).
  change (2 ^ 1) with 2 in H2.
  assert (Hp : 2 ^ precision = 2 * 2 ^ (precision - 1)).
  { rewrite <- Z.pow_succ_r by lia. f_equal. lia. }
  assert (0 < 2 ^ (precision - 1)) by (apply pow2_pos; lia).
  assert (Hme : 2 ^ precision <= Zpos m * 2 ^ e) by nia.
  assert (Hwme : 2 ^ precision <= w * (Zpos m * 2 ^ e)) by nia.
  destruct s; cbn [cond_Zopp] in *; lia.
Qed.

(** A fraction of a positive width lies between 0 and the width. *)
Lemma offset_bounds (w : Z) (t : Q) :
  0 < w -> (0 <= t <= 1)%Q -> (0 <= inject_Z w * t <= inject_Z w)%Q.
Proof.
  intros Hw [Ht0 Ht1].
  assert (Hw0 : (0 <= inject_Z w)%Q).
  { change 0%Q with (inject_Z 0). rewrite <- Zle_Qle. lia. }
  split.
  - now apply Qmult_le_0_compat.
  - rewrite <- (Qmult_1_r (inject_Z w)) at 2.
    rewrite (Qmult_comm _ t), (Qmult_comm _ 1).
    now apply Qmult_le_compat_r.
Qed.

(** The product of a positive coordinate and a number lies between the
    integers that the exact product lies between. *)
Lemma SFmul_between (w : Z) (t : spec_float) (lo hi : Z) :
  0 < w < 2 ^ precision -> - 2 ^ precision < lo -> hi < 2 ^ precision ->
  is_finite t = true ->
  (forall s m e, t = S754_finite s m e -> e <= 0) ->
  (inject_Z lo <= inject_Z w * SF2Q t <= inject_Z hi)%Q ->
  between (SFmul precision exponent_max (of_coord w) t) lo hi.
Proof.
  intros Hw Hlow Hhigh Hfin Hexp [Hlo Hup].
  assert (HW : between (of_coord w) w w) by (apply of_coord_between; lia).
  destruct (of_coord w) as [sw|sw| |sw mw ew]; try contradiction;
    [cbn in HW; lia|].
  destruct HW as (Hew & HW).
  pose proof (pow2_pos (- ew) ltac:(lia)) as Hpw.
  destruct sw; cbn [cond_Zopp] in HW; [nia|].
  assert (Hmw : Zpos mw = w * 2 ^ (- ew)) by lia. clear HW.
  destruct t as [s|s| |s mt et]; try discriminate.
  - cbn in Hlo, Hup |- *. rewrite Qmult_0_r in Hlo, Hup.
    change 0%Q with (inject_Z 0) in Hlo, Hup.
    rewrite <- Zle_Qle in Hlo, Hup. lia.
  - cbn [SF2Q] in *.
    pose proof (Hexp s mt et eq_refl) as Het.
    cbn [SFmul xorb].
    apply binary_round_aux_between; [lia|assumption|assumption|].
    apply scaled_ge in Hlo; [|assumption]. apply scaled_le in Hup; [|assumption].
    replace (- (ew + et)) with (- ew + - et) by lia.
    rewrite pow2_split by lia.
    pose proof (pow2_pos (- et) ltac:(lia)).
    destruct s; cbn [cond_Zopp] in *; rewrite Pos2Z.inj_mul, Hmw; nia.
Qed.

End Between.

(** ** The transition thickness *)

Section TransitionFacts.
Import Beading.
Context {F : FloatFormat}.

(** [getTransitionThickness] returns, and what it returns exceeds the
    optimal thickness by an amount between the integers that the computed
    offset lies between. *)
Lemma transition_between (self : DistributedBeadingStrategy) (n lo hi : Z) :
  0 < optimal_width self -> 0 <= n ->
  (n + 1) * optimal_width self < 2 ^ precision ->
  - 2 ^ precision < lo -> n * optimal_width self + hi < 2 ^ precision ->
  between (SFmul precision exponent_max (of_coord (optimal_width self))
             (wall_transition_threshold self)) lo hi ->
  exists v, getTransitionThickness self n = Some v
            /\ n * optimal_width self + lo <= v <= n * optimal_width self + hi.
Proof.
  intros Hw Hn Hrange Hlo Hhi Hx.
  unfold getTransitionThickness.
  pose proof pow2_precision.
  assert (Ha : between (of_coord (n * optimal_width self))
                 (n * optimal_width self) (n * optimal_width self))
    by (apply of_coord_between; nia).
  assert (Hsum : between _ (n * optimal_width self + lo)
                   (n * optimal_width self + hi))
    by (apply (SFadd_between _ _ _ _ _ _ Ha Hx); nia).
  destruct (to_coord_between _ _ _ Hsum) as (v & Hv & Hb).
  eauto.
Qed.

(** The offset [optimal_width * wall_transition_threshold], as it is
    computed for a threshold from 0 to 1, lies between 0 and
    [optimal_width]. *)
Lemma offset_between (self : DistributedBeadingStrategy) :
  0 < optimal_width self < 2 ^ precision ->
  is_finite (wall_transition_threshold self) = true ->
  (0 <= SF2Q (wall_transition_threshold self) <= 1)%Q ->
  between (SFmul precision exponent_max (of_coord (optimal_width self))
             (wall_transition_threshold self)) 0 (optimal_width self).
Proof.
  intros Hw Hfin Ht.
  pose proof pow2_precision.
  apply SFmul_between; [assumption|lia|lia|assumption|..].
  - intros s m e. now apply fraction_exponent.
  - apply offset_bounds; [lia|assumption].
Qed.

(** The transition thickness of [n] beads beside that of no bead, for a
    threshold from 0 to 1: it is [n] bead widths larger, or one unit more
    than that. *)
Lemma transition_pair (self : DistributedBeadingStrategy) (n : Z) :
  0 < optimal_width self -> 0 <= n ->
  (n + 1) * optimal_width self < 2 ^ precision ->
  is_finite (wall_transition_threshold self) = true ->
  (0 <= SF2Q (wall_transition_threshold self) <= 1)%Q ->
  exists first nth,
    getTransitionThickness self 0 = Some first
    /\ getTransitionThickness self n = Some nth
    /\ 0 <= first <= optimal_width self
    /\ n * optimal_width self + first <= nth
    /\ nth <= n * optimal_width self + first + 1
    /\ nth <= (n + 1) * optimal_width self.
Proof.
  intros Hw Hn Hrange Hfin Ht.
  pose proof pow2_precision.
  pose proof (offset_between self ltac:(nia) Hfin Ht) as Hx.
  destruct (to_coord_floor _ _ _ Hx ltac:(lia)) as (v0 & Hv0 & Hb0 & Hx0).
  exists v0.
  assert (Hfirst : getTransitionThickness self 0 = Some v0).
  { unfold getTransitionThickness.
    change (of_coord (0 * optimal_width self)) with (S754_zero false).
    now rewrite (SFadd_zero_l _ _ _ Hx). }
  destruct (Z.le_gt_cases (v0 + 1) (optimal_width self)) as [Hlt|Hge].
  - destruct (transition_between self n v0 (v0 + 1)
                Hw Hn Hrange ltac:(lia) ltac:(nia) Hx0) as (v & Hv & Hb).
    exists v. split_and!; try assumption; lia.
  - pose proof (between_both _ _ _ _ _ Hx0 Hx) as Hx1.
    destruct (transition_between self n v0 (optimal_width self)
                Hw Hn Hrange ltac:(lia) ltac:(nia) Hx1) as (v & Hv & Hb).
    exists v. split_and!; try assumption; lia.
Qed.

(** C6, as stated, fails on both sides.  With a bead width of 1 and a
    threshold of one half, which is positive, the transition thickness of
    0 beads is 0.5 converted to a coordinate, that is 0, the optimal
    thickness of 0 beads.  With a bead width of 400 and the largest
    threshold of a [double] below 1, the offset is rounded to
    400 - 2^-44 and its sum with 400 to 800: the transition thickness of
    one bead is the optimal thickness of two. *)
Lemma transition_not_strict :
  ((0 < SF2Q (wall_transition_threshold unit_strategy))%Q
   /\ getTransitionThickness (F := binary64) unit_strategy 0
      = Some (getOptimalThickness unit_strategy 0))
  /\ ((SF2Q (wall_transition_threshold late_strategy) < 1)%Q
      /\ getTransitionThickness (F := binary64) late_strategy 1
         = Some (getOptimalThickness late_strategy (1 + 1))).
Proof. repeat split. Qed.

(** The same in the arithmetic of a [float], with the largest threshold
    of a [float] below 1: (2^24 - 1) * 2^-24. *)
Lemma float_sum_rounds_up :
  let self := {| optimal_width := 400;
                 wall_transition_threshold := S754_finite false 16777215 (-24) |} in
  (SF2Q (wall_transition_threshold self) < 1)%Q
  /\ getTransitionThickness (F := binary32) self 1
     = Some (getOptimalThickness self (1 + 1)).
Proof. repeat split. Qed.

(** Beyond [2 ^ precision] coordinates are rounded as well: a bead width
    of 2^53 + 1 is converted to the [double] 2^53, and with the positive
    threshold 2^-61 the transition thickness of one bead is one unit below
    the optimal thickness of one bead. *)
Lemma transition_below_optimal :
  let self := {| optimal_width := 2 ^ 53 + 1;
                 wall_transition_threshold :=
                   S754_finite false 4503599627370496 (-113) |} in
  (0 < SF2Q (wall_transition_threshold self))%Q
  /\ getTransitionThickness (F := binary64) self 1
     = Some (getOptimalThickness self 1 - 1).
Proof. repeat split. Qed.

(** C6, as the code has it.  Let [optimal_width] be positive, [n] not
    negative with [(n + 1) * optimal_width] below [2 ^ precision], the
    threshold a finite number of the format, and let the exact offset
    [optimal_width * wall_transition_threshold] lie between the integers
    [lo], above [- 2 ^ precision], and [hi], with
    [n * optimal_width + hi] below [2 ^ precision].  Then
    [getTransitionThickness] returns, the optimal thickness of [n] beads
    plus something between [lo] and [hi].  So the transition thickness is
    at least the optimal thickness of [n] beads when the threshold is not
    negative, and exceeds it when the exact offset is at least one unit;
    it is at most the optimal thickness of [n + 1] beads when the
    threshold is at most 1, and below it when the exact offset is at
    least one unit below [optimal_width]. *)
Theorem transition_band (self : DistributedBeadingStrategy) (n lo hi : Z) :
  let threshold := wall_transition_threshold self in
  let offset := (inject_Z (optimal_width self) * SF2Q threshold)%Q in
  0 < optimal_width self -> 0 <= n ->
  (n + 1) * optimal_width self < 2 ^ precision ->
  is_finite threshold = true ->
  valid_binary precision exponent_max threshold = true ->
  (inject_Z lo <= offset <= inject_Z hi)%Q ->
  - 2 ^ precision < lo -> n * optimal_width self + hi < 2 ^ precision ->
  exists thickness,
    getTransitionThickness self n = Some thickness
    /\ getOptimalThickness self n + lo <= thickness
       <= getOptimalThickness self n + hi
    /\ ((0 <= SF2Q threshold)%Q -> getOptimalThickness self n <= thickness)
    /\ ((1 <= offset)%Q -> getOptimalThickness self n < thickness)
    /\ ((SF2Q threshold <= 1)%Q -> thickness <= getOptimalThickness self (n + 1))
    /\ ((offset <= inject_Z (optimal_width self - 1))%Q ->
        thickness < getOptimalThickness self (n + 1)).
Proof.
  intros threshold offset Hw Hn Hrange Hfin Hvalid Hoffset Hlow Hhigh.
  unfold getOptimalThickness.
  pose proof pow2_precision as Hpp.
  assert (Hexp : forall s m e, threshold = S754_finite s m e -> e <= 0).
  { intros s m e. apply (valid_exponent (optimal_width self) lo hi);
      try assumption. nia. }
  assert (Hbetween : forall lo' hi',
            - 2 ^ precision < lo' -> n * optimal_width self + hi' < 2 ^ precision ->
            (inject_Z lo' <= offset <= inject_Z hi')%Q ->
            exists v, getTransitionThickness self n = Some v
                      /\ n * optimal_width self + lo' <= v
                         <= n * optimal_width self + hi').
  { intros lo' hi' Hlow' Hhigh' Hoffset'.
    apply transition_between; try assumption.
    apply SFmul_between; try assumption; nia. }
  destruct (Hbetween lo hi Hlow Hhigh Hoffset) as (v & Hv & Hb).
  assert (Hsame : forall lo' hi',
            - 2 ^ precision < lo' -> n * optimal_width self + hi' < 2 ^ precision ->
            (inject_Z lo' <= offset <= inject_Z hi')%Q ->
            n * optimal_width self + lo' <= v <= n * optimal_width self + hi').
  { intros lo' hi' Hlow' Hhigh' Hoffset'.
    destruct (Hbetween lo' hi' Hlow' Hhigh' Hoffset') as (v' & Hv' & Hb').
    rewrite Hv in Hv'. now injection Hv' as <-. }
  assert (Hwq : (0 <= inject_Z (optimal_width self))%Q).
  { change 0%Q with (inject_Z 0). rewrite <- Zle_Qle. lia. }
  destruct Hoffset as [Hlo Hhi].
  exists v. split; [exact Hv|]. split; [exact Hb|]. split_and!.
  - intros Ht.
    assert (n * optimal_width self + 0 <= v <= n * optimal_width self + hi);
      [|lia].
    apply Hsame; [lia|lia|]. split; [|exact Hhi].
    now apply Qmult_le_0_compat.
  - intros Hone.
    assert (n * optimal_width self + 1 <= v <= n * optimal_width self + hi);
      [|lia].
    apply Hsame; [lia|lia|]. now split.
  - intros Ht.
    assert (n * optimal_width self + lo <= v
            <= n * optimal_width self + optimal_width self); [|lia].
    apply Hsame; [lia|lia|]. split; [exact Hlo|].
    unfold offset.
    rewrite <- (Qmult_1_r (inject_Z (optimal_width self))) at 2.
    rewrite (Qmult_comm _ (SF2Q _)), (Qmult_comm _ 1).
    now apply Qmult_le_compat_r.
  - intros Hless.
    assert (n * optimal_width self + lo <= v
            <= n * optimal_width self + (optimal_width self - 1)); [|lia].
    apply Hsame; [lia|lia|]. now split.
Qed.

End TransitionFacts.

Section TransitionScenarios.
Import Beading.

(** [transition_band] for three beads of 400 units and a threshold of one
    half, in the arithmetic of a [double]: the offset is 200, and the
    transition thickness 1400 lies between 1200 and 1600, the bounds
    excluded. *)
Lemma transition_band_witness :
  exists thickness,
    getTransitionThickness (F := binary64) usual_strategy 3 = Some thickness
    /\ getOptimalThickness usual_strategy 3 + 200 <= thickness
       <= getOptimalThickness usual_strategy 3 + 200
    /\ getOptimalThickness usual_strategy 3 < thickness
    /\ thickness < getOptimalThickness usual_strategy (3 + 1).
Proof.
  destruct (transition_band (F := binary64) usual_strategy 3 200 200)
    as (thickness & Hreturn & Hexact & _ & Habove & _ & Hbelow).
  - cbn. lia.
  - lia.
  - cbn. lia.
  - reflexivity.
  - reflexivity.
  - split; vm_compute; discriminate.
  - cbn. lia.
  - cbn. lia.
  - exists thickness. split; [exact Hreturn|]. split; [exact Hexact|]. split.
    + apply Habove. vm_compute. discriminate.
    + apply Hbelow. vm_compute. discriminate.
Defined.

End TransitionScenarios.

(** ** Polygon simplification *)

(** *** Vectors and the search for neighbours *)

Section Neighbours.
Import Simplify.

(** [store] writes inside the vector, and only there. *)
Lemma store_Some {A : Type} (l l' : list A) (i : nat) (x : A) :
  store l i x = Some l' -> (i < length l)%nat /\ l' = <[i := x]> l.
Proof.
  unfold store. case_decide; [|discriminate]. intros [= <-]. auto.
Qed.

Lemma store_in_range {A : Type} (l : list A) (i : nat) (x : A) :
  (i < length l)%nat -> store l i x = Some (<[i := x]> l).
Proof. intros Hi. unfold store. now rewrite decide_True. Qed.

(** Setting a flag clears none. *)
Lemma flag_kept (flags : list bool) (vertex j : nat) :
  flags !! j = Some true -> <[vertex := true]> flags !! j = Some true.
Proof.
  intros Hj. destruct (decide (vertex = j)) as [->|Hne].
  - apply list_lookup_insert_eq. now apply lookup_lt_Some in Hj.
  - now rewrite list_lookup_insert_ne.
Qed.

(** The search forwards finds a vertex that is not deleted, if one is
    among the candidates it may visit. *)
Lemma next_loop_finds (flags : list bool) (fuel i k : nat) :
  (i < length flags)%nat -> (k < fuel)%nat ->
  flags !! ((i + k) mod length flags)%nat = Some false ->
  exists j, next_loop fuel (length flags) flags i = Some j
            /\ flags !! j = Some false.
Proof.
  revert i k. induction fuel as [|fuel IH]; intros i k Hi Hk Hfree; [lia|].
  cbn [next_loop].
  destruct (lookup_lt_is_Some_2 flags i Hi) as [[|] Hflag]; rewrite Hflag.
  - destruct k as [|k].
    + rewrite Nat.add_0_r, Nat.mod_small in Hfree by exact Hi. congruence.
    + apply (IH _ k).
      * apply Nat.mod_upper_bound. lia.
      * lia.
      * rewrite Nat.Div0.add_mod_idemp_l.
        now replace (i + 1 + k)%nat with (i + S k)%nat by lia.
  - eauto.
Qed.

(** The search backwards, likewise. *)
Lemma previous_loop_finds (flags : list bool) (fuel i k : nat) :
  (i < length flags)%nat -> (k < fuel)%nat -> (k <= length flags)%nat ->
  flags !! ((i + length flags - k) mod length flags)%nat = Some false ->
  exists j, previous_loop fuel (length flags) flags i = Some j
            /\ flags !! j = Some false.
Proof.
  revert i k. induction fuel as [|fuel IH]; intros i k Hi Hk Hsize Hfree; [lia|].
  cbn [previous_loop].
  destruct (lookup_lt_is_Some_2 flags i Hi) as [[|] Hflag]; rewrite Hflag.
  - destruct k as [|k].
    + rewrite Nat.sub_0_r in Hfree.
      replace (i + length flags)%nat with (i + 1 * length flags)%nat in Hfree by lia.
      rewrite Nat.Div0.mod_add, Nat.mod_small in Hfree by exact Hi. congruence.
    + apply (IH _ k).
      * apply Nat.mod_upper_bound. lia.
      * lia.
      * lia.
      * rewrite <- Nat.add_sub_assoc by lia.
        rewrite Nat.Div0.add_mod_idemp_l.
        replace (i + length flags - 1 + (length flags - k))%nat
          with (i + length flags - S k + 1 * length flags)%nat by lia.
        now rewrite Nat.Div0.mod_add.
  - eauto.
Qed.

(** Both searches return, with a vertex that is not deleted, as soon as
    one flag is not set. *)
Lemma nextNotDeleted_defined (flags : list bool) (index free : nat) :
  flags !! free = Some false ->
  exists j, nextNotDeleted index flags = Some j /\ flags !! j = Some false.
Proof.
  intros Hfree. assert (Hlt := lookup_lt_Some _ _ _ Hfree).
  unfold nextNotDeleted.
  set (size := length flags) in *. set (s := ((index + 1) mod size)%nat).
  assert (Hs : (s < size)%nat) by (apply Nat.mod_upper_bound; lia).
  destruct (le_lt_dec s free) as [Hle|Hgt].
  - apply (next_loop_finds flags size s (free - s)); try lia.
    fold size. replace (s + (free - s))%nat with free by lia.
    now rewrite Nat.mod_small.
  - apply (next_loop_finds flags size s (free + size - s)); try lia.
    fold size. replace (s + (free + size - s))%nat with (free + 1 * size)%nat by lia.
    now rewrite Nat.Div0.mod_add, Nat.mod_small.
Qed.

Lemma previousNotDeleted_defined (flags : list bool) (index free : nat) :
  flags !! free = Some false ->
  exists j, previousNotDeleted index flags = Some j /\ flags !! j = Some false.
Proof.
  intros Hfree. assert (Hlt := lookup_lt_Some _ _ _ Hfree).
  unfold previousNotDeleted.
  set (size := length flags) in *. set (s := ((index + size - 1) mod size)%nat).
  assert (Hs : (s < size)%nat) by (apply Nat.mod_upper_bound; lia).
  destruct (le_lt_dec free s) as [Hle|Hgt].
  - apply (previous_loop_finds flags size s (s - free)); try lia.
    fold size. replace (s + size - (s - free))%nat with (free + 1 * size)%nat by lia.
    now rewrite Nat.Div0.mod_add, Nat.mod_small.
  - apply (previous_loop_finds flags size s (s + size - free)); try lia.
    fold size. replace (s + size - (s + size - free))%nat with free by lia.
    now rewrite Nat.mod_small.
Qed.

(** While the first vertex is not deleted the search backwards does not
    wrap around, and while the last is not, neither does the search
    forwards. *)
Lemma previous_loop_le (flags : list bool) (fuel i j : nat) :
  flags !! 0%nat = Some false ->
  (i < length flags)%nat ->
  previous_loop fuel (length flags) flags i = Some j ->
  (j <= i)%nat.
Proof.
  intros Hfirst. revert i.
  induction fuel as [|fuel IH]; intros i Hi; cbn [previous_loop]; [discriminate|].
  destruct (flags !! i) as [[|]|] eqn:Hflag; try discriminate.
  - destruct i as [|i]; [congruence|].
    replace (S i + length flags - 1)%nat with (i + 1 * length flags)%nat by lia.
    rewrite Nat.Div0.mod_add, Nat.mod_small by lia.
    intros Hj. apply IH in Hj; lia.
  - intros [= <-]. lia.
Qed.

Lemma next_loop_ge (flags : list bool) (fuel i j : nat) :
  flags !! (length flags - 1)%nat = Some false ->
  (i < length flags)%nat ->
  next_loop fuel (length flags) flags i = Some j ->
  (i <= j)%nat.
Proof.
  intros Hlast. revert i.
  induction fuel as [|fuel IH]; intros i Hi; cbn [next_loop]; [discriminate|].
  destruct (flags !! i) as [[|]|] eqn:Hflag; try discriminate.
  - assert (i <> length flags - 1)%nat by congruence.
    rewrite Nat.mod_small by lia.
    intros Hj. apply IH in Hj; lia.
  - intros [= <-]. lia.
Qed.

Lemma previousNotDeleted_below (flags : list bool) (vertex j : nat) :
  flags !! 0%nat = Some false ->
  (0 < vertex < length flags)%nat ->
  previousNotDeleted vertex flags = Some j ->
  (j < vertex)%nat.
Proof.
  intros Hfirst Hv. unfold previousNotDeleted.
  replace (vertex + length flags - 1)%nat
    with (vertex - 1 + 1 * length flags)%nat by lia.
  rewrite Nat.Div0.mod_add, Nat.mod_small by lia.
  intros Hj. apply previous_loop_le in Hj; auto; lia.
Qed.

Lemma nextNotDeleted_above (flags : list bool) (vertex j : nat) :
  flags !! (length flags - 1)%nat = Some false ->
  (vertex + 1 < length flags)%nat ->
  nextNotDeleted vertex flags = Some j ->
  (vertex < j)%nat.
Proof.
  intros Hlast Hv. unfold nextNotDeleted.
  rewrite Nat.mod_small by lia.
  intros Hj. apply next_loop_ge in Hj; auto; lia.
Qed.

End Neighbours.

(** Takes a run of one of the functions apart, branch by branch. *)
Ltac split_run :=
  repeat (first
    [ progress simplify_option_eq
    | case_match
    | match goal with
      | H : Simplify.store _ _ _ = Some _ |- _ =>
          apply store_Some in H as [? ->]
      end ]).

Section SimplifyFacts.
Import Simplify.
Context `{G : Geometry}.
Variable self : Simplify.

(** *** One call of [remove] *)

(** The branches of [remove]: the vertex is within [min_resolution] of
    the line through its neighbours and is deleted; or both edges at the
    vertex are short and it is deleted; or nothing happens; or the vertex
    is deleted and the other end of the shorter edge goes to the
    intersection of the lines through the two edges around that edge. *)
Lemma remove_cases (polygon polygon' : Polygon) (flags flags' : list bool)
    (vertex : nat) (deviation2 : Z) (is_closed : bool) :
  remove self polygon flags vertex deviation2 is_closed = Some (polygon', flags') ->
  (deviation2 <= min_resolution * min_resolution
   /\ (vertex < length flags)%nat
   /\ polygon' = polygon /\ flags' = <[vertex := true]> flags)
  \/ (min_resolution * min_resolution < deviation2
      /\ exists before after vertex_position before_position after_position,
           previousNotDeleted vertex flags = Some before
           /\ nextNotDeleted vertex flags = Some after
           /\ polygon !! vertex = Some vertex_position
           /\ polygon !! before = Some before_position
           /\ polygon !! after = Some after_position
           /\ let length2_before := vSize2 (psub vertex_position before_position) in
              let length2_after := vSize2 (psub vertex_position after_position) in
              let both_short :=
                length2_before <= max_resolution self * max_resolution self
                /\ length2_after <= max_resolution self * max_resolution self in
              let before_shorter := length2_before <=? length2_after in
              (both_short /\ (vertex < length flags)%nat
               /\ polygon' = polygon /\ flags' = <[vertex := true]> flags)
              \/ (~ both_short /\ polygon' = polygon /\ flags' = flags)
              \/ (~ both_short
                  /\ exists a d intersection,
                       lineLineIntersection a
                         (if before_shorter then before_position else vertex_position)
                         (if before_shorter then vertex_position else after_position)
                         d = Some intersection
                       /\ (if before_shorter
                           then d = after_position
                                /\ exists before_before,
                                     previousNotDeleted before flags = Some before_before
                                     /\ polygon !! before_before = Some a
                           else a = before_position
                                /\ exists after_after,
                                     nextNotDeleted after flags = Some after_after
                                     /\ polygon !! after_after = Some d)
                       /\ getDist2FromLine intersection
                            (if before_shorter then before_position else vertex_position)
                            (if before_shorter then vertex_position else after_position)
                          <= max_deviation self * max_deviation self
                       /\ ((if before_shorter then before else after)
                           < length polygon)%nat
                       /\ (vertex < length flags)%nat
                       /\ flags' = <[vertex := true]> flags
                       /\ polygon'
                          = <[(if before_shorter then before else after) := intersection]>
                              polygon)).
Proof.
  unfold remove. intros Hrun.
  destruct (Z.leb_spec deviation2 (min_resolution * min_resolution)) as [Hd|Hd].
  { split_run. left. auto. }
  right. split; [exact Hd|].
  destruct (previousNotDeleted vertex flags) as [before|] eqn:Hprev;
    [|discriminate].
  destruct (nextNotDeleted vertex flags) as [after|] eqn:Hnext; [|discriminate].
  cbn [mbind option_bind] in Hrun.
  destruct (polygon !! vertex) as [pv|] eqn:Hpv; [|discriminate].
  destruct (polygon !! before) as [pb|] eqn:Hpb; [|discriminate].
  destruct (polygon !! after) as [pa|] eqn:Hpa; [|discriminate].
  cbn [mbind option_bind] in Hrun.
  exists before, after, pv, pb, pa. do 5 (split; [assumption || reflexivity|]).
  cbv zeta.
  set (lb := vSize2 (psub pv pb)) in *. set (la := vSize2 (psub pv pa)) in *.
  destruct (Z.leb_spec lb (max_resolution self * max_resolution self)) as [Hlb|Hlb];
  destruct (Z.leb_spec la (max_resolution self * max_resolution self)) as [Hla|Hla];
    cbn [andb] in Hrun;
    try (left; split_run; split_and!; auto; fail);
    right;
    (destruct (lb <=? la) eqn:Hshorter; split_run;
     first [ left; split_and!; auto; lia
           | right; split; [lia|]; do 3 eexists;
             split_and!; eauto; try lia; fail ]).
Qed.

(** What [remove] does to the flags and to the sizes. *)
Lemma remove_flags (polygon polygon' : Polygon) (flags flags' : list bool)
    (vertex : nat) (deviation2 : Z) (is_closed : bool) :
  remove self polygon flags vertex deviation2 is_closed = Some (polygon', flags') ->
  (flags' = flags \/ flags' = <[vertex := true]> flags)
  /\ length polygon' = length polygon.
Proof.
  intros Hrun. apply remove_cases in Hrun
    as [(_ & _ & -> & ->)|(_ & b & a & pv & pb & pa & _ & _ & _ & _ & _ & Hrun)];
    [auto|].
  cbv zeta in Hrun.
  destruct Hrun as [(_ & _ & -> & ->)|[(_ & -> & ->)|(_ & Hrun)]]; auto.
  destruct Hrun as (? & ? & ? & _ & _ & _ & _ & _ & -> & ->).
  split; [auto|]. apply length_insert.
Qed.

(** C10: a call of [remove] sets no flag but that of [vertex] and clears
    none, it changes the position of one vertex at most, and which of the
    two it does is fixed branch by branch.  The flag of [vertex] is set
    and every position is as it was when [deviation2] is within
    [min_resolution] squared, and when both edges at [vertex] are within
    [max_resolution].  Otherwise the shorter edge, the one before [vertex]
    unless it is the longer one, is to be removed, and [survivor], its
    other end, is to go to the intersection of the lines through the two
    edges around it.  Nothing at all changes when the polyline is open and
    ends at [survivor], when these lines do not meet, and when they meet
    further than [max_deviation] from the line through the shorter edge.
    In the one branch that is left the flag of [vertex] is set,
    [survivor] is at the intersection, and every other position is as it
    was. *)
Theorem remove_frame (polygon polygon' : Polygon) (flags flags' : list bool)
    (vertex : nat) (deviation2 : Z) (is_closed : bool) :
  remove self polygon flags vertex deviation2 is_closed = Some (polygon', flags') ->
  let unchanged := polygon' = polygon /\ flags' = flags in
  let deleted_in_place :=
    polygon' = polygon /\ flags' = <[vertex := true]> flags in
  (forall j, flags !! j = Some true -> flags' !! j = Some true)
  /\ (forall j, j <> vertex -> flags' !! j = flags !! j)
  /\ (exists moved, forall i, i <> moved -> polygon' !! i = polygon !! i)
  /\ (deviation2 <= min_resolution * min_resolution -> deleted_in_place)
  /\ (min_resolution * min_resolution < deviation2 ->
      exists before after vertex_position before_position after_position,
        previousNotDeleted vertex flags = Some before
        /\ nextNotDeleted vertex flags = Some after
        /\ polygon !! vertex = Some vertex_position
        /\ polygon !! before = Some before_position
        /\ polygon !! after = Some after_position
        /\ let length2_before := vSize2 (psub vertex_position before_position) in
           let length2_after := vSize2 (psub vertex_position after_position) in
           let both_short :=
             length2_before <= max_resolution self * max_resolution self
             /\ length2_after <= max_resolution self * max_resolution self in
           let before_shorter := length2_before <=? length2_after in
           let survivor := if before_shorter then before else after in
           let short_from :=
             if before_shorter then before_position else vertex_position in
           let short_to :=
             if before_shorter then vertex_position else after_position in
           let at_open_end :=
             negb is_closed
             && (if before_shorter then (before =? 0)%nat
                 else (after =? length polygon - 1)%nat) in
           (both_short -> deleted_in_place)
           /\ (~ both_short -> at_open_end = true -> unchanged)
           /\ (~ both_short -> at_open_end = false ->
               exists beyond far_from far_to,
                 (if before_shorter
                  then previousNotDeleted before flags = Some beyond
                       /\ polygon !! beyond = Some far_from
                       /\ far_to = after_position
                  else nextNotDeleted after flags = Some beyond
                       /\ polygon !! beyond = Some far_to
                       /\ far_from = before_position)
                 /\ match lineLineIntersection far_from short_from short_to far_to with
                    | None => unchanged
                    | Some intersection =>
                        if getDist2FromLine intersection short_from short_to
                           <=? max_deviation self * max_deviation self
                        then flags' = <[vertex := true]> flags
                             /\ polygon' = <[survivor := intersection]> polygon
                             /\ polygon' !! survivor = Some intersection
                             /\ forall i, i <> survivor ->
                                          polygon' !! i = polygon !! i
                        else unchanged
                    end)).
Proof.
  intros Hrun. cbv zeta.
  destruct (remove_flags _ _ _ _ _ _ _ Hrun) as [Hflags _].
  split; [|split; [|split]].
  - intros j Hj. destruct Hflags as [->| ->]; auto using flag_kept.
  - intros j Hj. destruct Hflags as [->| ->]; [reflexivity|].
    now apply list_lookup_insert_ne.
  - apply remove_cases in Hrun
      as [(_ & _ & -> & _)
         |(_ & b & a & pv & pb & pa & _ & _ & _ & _ & _ & Hrun)];
      [now exists 0%nat|].
    cbv zeta in Hrun.
    destruct Hrun as [(_ & _ & -> & _)|[(_ & -> & _)|(_ & Hrun)]];
      [now exists 0%nat|now exists 0%nat|].
    destruct Hrun as (p & q & i & _ & _ & _ & _ & _ & _ & ->).
    eexists. intros k Hk. apply list_lookup_insert_ne.
    intros Heq. apply Hk. symmetry. exact Heq.
  - clear Hflags. unfold remove in Hrun. split.
    + intros Hd.
      destruct (Z.leb_spec deviation2 (min_resolution * min_resolution)); [|lia].
      split_run. auto.
    + intros Hd.
      destruct (Z.leb_spec deviation2 (min_resolution * min_resolution)); [lia|].
      destruct (previousNotDeleted vertex flags) as [before|] eqn:Hprev;
        [|discriminate].
      destruct (nextNotDeleted vertex flags) as [after|] eqn:Hnext;
        [|discriminate].
      cbn [mbind option_bind] in Hrun.
      destruct (polygon !! vertex) as [pv|] eqn:Hpv; [|discriminate].
      destruct (polygon !! before) as [pb|] eqn:Hpb; [|discriminate].
      destruct (polygon !! after) as [pa|] eqn:Hpa; [|discriminate].
      cbn [mbind option_bind] in Hrun.
      exists before, after, pv, pb, pa.
      do 5 (split; [assumption || reflexivity|]).
      set (lb := vSize2 (psub pv pb)) in *.
      set (la := vSize2 (psub pv pa)) in *.
      destruct (Z.leb_spec lb (max_resolution self * max_resolution self))
        as [Hlb|Hlb];
      destruct (Z.leb_spec la (max_resolution self * max_resolution self))
        as [Hla|Hla];
        cbn [andb] in Hrun.
      1: { destruct (store flags vertex true) as [f|] eqn:Hs; [|discriminate].
           apply store_Some in Hs as [_ ->]. cbn in Hrun.
           injection Hrun as <- <-.
           split_and!; [auto|intros Hn; exfalso; apply Hn; split; lia..]. }
      all: (split; [intros [? ?]; lia|]).
      all: clear Hprev Hnext Hpv Hpb Hpa.
      all: destruct (lb <=? la) eqn:Hshorter.
      all: match goal with
           | |- context [negb ?c && ?e] => destruct (negb c && e) eqn:Hend
           end.
      all: cbn [mbind option_bind] in Hrun.
      all: try (injection Hrun as <- <-; split; [auto|intros _ [=]]; fail).
      all: (split; [intros _ [=]|intros _ _]).
      all: match goal with
           | H : context [previousNotDeleted ?i ?f] |- _ =>
               destruct (previousNotDeleted i f) as [beyond|] eqn:Hbeyond
           | H : context [nextNotDeleted ?i ?f] |- _ =>
               destruct (nextNotDeleted i f) as [beyond|] eqn:Hbeyond
           end; [|discriminate]; cbn [mbind option_bind] in Hrun;
           (destruct (polygon !! beyond) as [far|] eqn:Hfar; [|discriminate]);
           cbn [mbind option_bind] in Hrun.
      all: do 3 eexists;
           (split; [split_and!; first [eassumption|reflexivity]|]).
      all: match goal with
           | H : context [lineLineIntersection ?a ?b ?c ?d] |- _ =>
               destruct (lineLineIntersection a b c d) as [intersection|]
           end; [|injection Hrun as <- <-; auto].
      all: match goal with
           | H : context [getDist2FromLine ?i ?b ?c <=? ?m] |- _ =>
               destruct (getDist2FromLine i b c <=? m)
           end; [|injection Hrun as <- <-; auto].
      all: (destruct (store flags vertex true) as [f|] eqn:Hs; [|discriminate]);
           apply store_Some in Hs as [_ ->]; cbn [mbind option_bind] in Hrun;
           match goal with
           | H : context [store ?l ?k ?i] |- _ =>
               destruct (store l k i) as [p|] eqn:Hp; [|discriminate]
           end;
           apply store_Some in Hp as [Hk ->]; injection Hrun as <- <-;
           split_and!; auto using list_lookup_insert_eq.
      all: intros k Hne; apply list_lookup_insert_ne; congruence.
Qed.

(** An importance other than the sentinel is the squared deviation. *)
Lemma importance_deviation (polygon : Polygon) (flags : list bool)
    (index : nat) (is_closed : bool) (d : Z) :
  importance self polygon flags index is_closed = Some d ->
  d <> coord_max ->
  protected is_closed (length polygon) index = false
  /\ deviation2_at polygon flags index = Some d.
Proof.
  unfold importance, deviation2_at, protected. intros Himp Hd.
  split_run; auto; congruence.
Qed.

(** For a deviation within [min_resolution] the importance is that
    deviation, whatever [max_resolution] is. *)
Lemma importance_noise (polygon : Polygon) (flags : list bool)
    (index : nat) (is_closed : bool) (d : Z) :
  protected is_closed (length polygon) index = false ->
  deviation2_at polygon flags index = Some d ->
  d <= min_resolution * min_resolution ->
  importance self polygon flags index is_closed = Some d.
Proof.
  unfold importance, deviation2_at, protected. intros -> Hdev Hd.
  split_run; auto; lia.
Qed.

(** The three ways a round of the removal loop can go: the entry is
    stale and queued again, it is up to date and too important, or it is
    up to date and handed to [remove]. *)
Lemma step_cases (is_closed : bool) (st st' : State) :
  simplify_step self is_closed st = Some st' ->
  exists v k popped d,
    by_importance st = (v, k) :: popped
    /\ importance self (result st) (to_delete st) v is_closed = Some d
    /\ ((d <> k
         /\ st' = {| by_importance := emplace (v, d) popped;
                     result := result st; to_delete := to_delete st |})
        \/ (d = k /\ max_deviation self * max_deviation self < d
            /\ st' = {| by_importance := popped;
                        result := result st; to_delete := to_delete st |})
        \/ (d = k /\ d <= max_deviation self * max_deviation self
            /\ exists polygon' flags',
                 remove self (result st) (to_delete st) v d is_closed
                 = Some (polygon', flags')
                 /\ st' = {| by_importance := popped;
                             result := polygon'; to_delete := flags' |})).
Proof.
  unfold simplify_step. intros Hstep.
  destruct (by_importance st) as [|[v k] popped]; [discriminate|].
  cbn [fst snd] in Hstep.
  destruct (importance self (result st) (to_delete st) v is_closed) as [d|]
    eqn:Himp; [|discriminate].
  cbn in Hstep. exists v, k, popped, d. split; [reflexivity|split; [exact Himp|]].
  destruct (Z.eqb_spec d k) as [->|Hne]; cbn in Hstep.
  - destruct (Z.leb_spec k (max_deviation self * max_deviation self)).
    + right; right.
      destruct (remove self (result st) (to_delete st) v k is_closed)
        as [[polygon' flags']|]; [|discriminate].
      cbn in Hstep. injection Hstep as <-. eauto 10.
    + right; left. injection Hstep as <-. auto.
  - left. injection Hstep as <-. auto.
Qed.

(** A round of the removal loop keeps the number of flags. *)
Lemma step_flags_length (is_closed : bool) (st st' : State) :
  simplify_step self is_closed st = Some st' ->
  length (to_delete st') = length (to_delete st).
Proof.
  intros Hstep. apply step_cases in Hstep
    as (v & k & popped & d & _ & _ & [(_ & ->)|[(_ & _ & ->)|(_ & _ & Hrm)]]);
    try reflexivity.
  destruct Hrm as (polygon' & flags' & Hrm & ->). cbn.
  apply remove_flags in Hrm as ([->| ->] & _); [reflexivity|].
  apply length_insert.
Qed.

(** The round that sets a flag found the vertex within [max_deviation] of
    the line through its neighbours. *)
Lemma step_removal_within (is_closed : bool) (st st' : State) (v : nat) :
  max_deviation self * max_deviation self < coord_max ->
  simplify_step self is_closed st = Some st' ->
  to_delete st !! v = Some false ->
  to_delete st' !! v = Some true ->
  exists d, deviation2_at (result st) (to_delete st) v = Some d
            /\ d <= max_deviation self * max_deviation self.
Proof.
  intros Hmax Hstep Hbefore Hafter.
  apply step_cases in Hstep
    as (v0 & k & popped & d & _ & Himp & [(_ & ->)|[(_ & _ & ->)|(_ & Hd & Hrm)]]);
    cbn in Hafter; try congruence.
  destruct Hrm as (polygon' & flags' & Hrm & ->). cbn in Hafter.
  apply remove_flags in Hrm as ([->| ->] & _); [congruence|].
  destruct (decide (v0 = v)) as [->|Hne].
  - exists d. split; [|exact Hd].
    apply importance_deviation in Himp as [_ Hdev]; [exact Hdev | lia].
  - rewrite list_lookup_insert_ne in Hafter by exact Hne. congruence.
Qed.

(** The removal loop passes through the state it ends in. *)
Lemma loop_run (fuel : nat) (is_closed : bool) (st st' : State) :
  simplify_loop self fuel is_closed st = Some st' -> run self is_closed st st'.
Proof.
  revert st. induction fuel as [|fuel IH]; intros st; cbn;
    case_decide; try discriminate.
  - intros [= <-]. constructor.
  - destruct (simplify_step self is_closed st) as [st1|] eqn:Hstep;
      [|discriminate].
    cbn. intros Hloop. eapply run_round; eauto.
  - intros [= <-]. constructor.
Qed.

(** A flag that is set when the removal loop ends was set by one of its
    rounds, for a vertex within [max_deviation] of the line through its
    neighbours of that round. *)
Lemma loop_removal_within (fuel : nat) (is_closed : bool) (st0 st : State)
    (v : nat) :
  max_deviation self * max_deviation self < coord_max ->
  simplify_loop self fuel is_closed st0 = Some st ->
  to_delete st0 !! v = Some false ->
  to_delete st !! v = Some true ->
  exists st1 st2 d,
    run self is_closed st0 st1
    /\ simplify_step self is_closed st1 = Some st2
    /\ run self is_closed st2 st
    /\ to_delete st1 !! v = Some false
    /\ to_delete st2 !! v = Some true
    /\ deviation2_at (result st1) (to_delete st1) v = Some d
    /\ d <= max_deviation self * max_deviation self.
Proof.
  intros Hmax. revert st0.
  induction fuel as [|fuel IH]; intros st0; cbn;
    case_decide; try discriminate; try (intros [= <-]; congruence).
  destruct (simplify_step self is_closed st0) as [st'|] eqn:Hstep;
    [|discriminate].
  cbn. intros Hloop Hfalse Htrue.
  assert (Hlen := step_flags_length _ _ _ Hstep).
  destruct (to_delete st' !! v) as [[|]|] eqn:Hv.
  - destruct (step_removal_within _ _ _ _ Hmax Hstep Hfalse Hv) as (d & Hd & Hle).
    exists st0, st', d.
    split; [constructor|]. split; [exact Hstep|].
    split; [eapply loop_run; exact Hloop|]. auto.
  - destruct (IH st' Hloop Hv Htrue)
      as (st1 & st2 & d & Hrun & Hrest).
    exists st1, st2, d. split; [|exact Hrest].
    eapply run_round; eauto.
  - apply lookup_ge_None in Hv. apply lookup_lt_Some in Hfalse. lia.
Qed.

(** C9, as the code has it: every vertex that a run of [simplify] removes
    was, in the round that set its flag, within [max_deviation] of the
    line through the neighbours it had in that round, at the positions
    they had then, the squared distance being the one
    [getDist2FromLine] returns. *)
Theorem removed_within_deviation (polygon : Polygon) (is_closed : bool)
    (st : State) (v : nat) :
  max_deviation self * max_deviation self < coord_max ->
  removal self polygon is_closed = Some st ->
  to_delete st !! v = Some true ->
  exists st0 st1 st2 d,
    initial_state self polygon is_closed = Some st0
    /\ run self is_closed st0 st1
    /\ simplify_step self is_closed st1 = Some st2
    /\ run self is_closed st2 st
    /\ to_delete st1 !! v = Some false
    /\ to_delete st2 !! v = Some true
    /\ deviation2_at (result st1) (to_delete st1) v = Some d
    /\ d <= max_deviation self * max_deviation self.
Proof.
  intros Hmax. unfold removal.
  destruct (initial_state self polygon is_closed) as [st0|] eqn:Hinit;
    [|discriminate].
  cbn. intros Hloop Htrue.
  assert (Hflags : to_delete st0 = replicate (length polygon) false).
  { unfold initial_state in Hinit. split_run. reflexivity. }
  assert (Hfalse : to_delete st0 !! v = Some false).
  { assert (Hlen : length (to_delete st) = length (to_delete st0)).
    { clear Htrue Hflags Hinit. revert st0 Hloop.
      generalize (rounds (length polygon)) as fuel.
      induction fuel as [|fuel IH]; intros st0; cbn;
        case_decide; try discriminate; try (now intros [= <-]).
      destruct (simplify_step self is_closed st0) as [st'|] eqn:Hstep;
        [|discriminate].
      cbn. intros Hloop. rewrite (IH _ Hloop).
      eapply step_flags_length; eauto. }
    apply lookup_lt_Some in Htrue. rewrite Hflags in *.
    rewrite length_replicate in Hlen.
    apply lookup_replicate_2. lia. }
  destruct (loop_removal_within _ _ _ _ _ Hmax Hloop Hfalse Htrue)
    as (st1 & st2 & d & Hrest).
  exists st0, st1, st2, d. auto.
Qed.

(** C8, as the code has it: when the vertex at the head of the queue is
    no protected end point, its entry is up to date and its squared
    deviation [d] from the line through its neighbours is at most
    [min_resolution] squared, the round marks it deleted and moves nothing
    if [d] is at most [max_deviation] squared, and leaves it in place
    otherwise; [max_resolution] plays no part. *)
Theorem noise_floor_step (is_closed : bool) (st : State) (v : nat) (d : Z)
    (popped : list (nat * Z)) :
  by_importance st = (v, d) :: popped ->
  protected is_closed (length (result st)) v = false ->
  deviation2_at (result st) (to_delete st) v = Some d ->
  d <= min_resolution * min_resolution ->
  (v < length (to_delete st))%nat ->
  (d <= max_deviation self * max_deviation self ->
   simplify_step self is_closed st
   = Some {| by_importance := popped; result := result st;
             to_delete := <[v := true]> (to_delete st) |})
  /\ (max_deviation self * max_deviation self < d ->
      simplify_step self is_closed st
      = Some {| by_importance := popped; result := result st;
                to_delete := to_delete st |}).
Proof.
  intros Hq Hprot Hdev Hd Hv.
  unfold simplify_step. rewrite Hq. cbn [fst snd].
  rewrite (importance_noise _ _ _ _ _ Hprot Hdev Hd). cbn.
  rewrite Z.eqb_refl. cbn.
  split; intros Hmax.
  - destruct (Z.leb_spec d (max_deviation self * max_deviation self)); [|lia].
    unfold remove.
    destruct (Z.leb_spec d (min_resolution * min_resolution)); [|lia].
    rewrite store_in_range by exact Hv. reflexivity.
  - destruct (Z.leb_spec d (max_deviation self * max_deviation self)); [lia|].
    reflexivity.
Qed.

(** *** The removal loop ends *)

(** [importance] returns for every vertex of a polygon that has a vertex
    left. *)
Lemma importance_defined (polygon : Polygon) (flags : list bool)
    (index free : nat) (is_closed : bool) :
  length flags = length polygon ->
  (index < length polygon)%nat ->
  flags !! free = Some false ->
  is_Some (importance self polygon flags index is_closed).
Proof.
  intros Hlen Hindex Hfree. unfold importance.
  case_match; [eauto|].
  destruct (lookup_lt_is_Some_2 polygon index Hindex) as [vertex ->].
  destruct (previousNotDeleted_defined flags index free Hfree)
    as (b & -> & Hb).
  destruct (nextNotDeleted_defined flags index free Hfree)
    as (a & -> & Ha).
  apply lookup_lt_Some in Hb, Ha. rewrite Hlen in Hb, Ha.
  destruct (lookup_lt_is_Some_2 polygon b Hb) as [before Hpb].
  destruct (lookup_lt_is_Some_2 polygon a Ha) as [after Hpa].
  cbn. rewrite Hpb. cbn. rewrite Hpa. cbn. repeat case_match; eauto.
Qed.

(** [remove] returns for every vertex of a polygon that has a vertex
    left. *)
Lemma remove_defined (polygon : Polygon) (flags : list bool)
    (vertex free : nat) (deviation2 : Z) (is_closed : bool) :
  length flags = length polygon ->
  (vertex < length polygon)%nat ->
  flags !! free = Some false ->
  is_Some (remove self polygon flags vertex deviation2 is_closed).
Proof.
  intros Hlen Hvertex Hfree. unfold remove.
  assert (Hstore : store flags vertex true = Some (<[vertex := true]> flags))
    by (apply store_in_range; lia).
  destruct (previousNotDeleted_defined flags vertex free Hfree)
    as (b & Hprev & Hb).
  destruct (nextNotDeleted_defined flags vertex free Hfree)
    as (a & Hnext & Ha).
  destruct (previousNotDeleted_defined flags b free Hfree)
    as (bb & Hprev2 & Hbb).
  destruct (nextNotDeleted_defined flags a free Hfree)
    as (aa & Hnext2 & Haa).
  apply lookup_lt_Some in Hb, Ha, Hbb, Haa. rewrite Hlen in Hb, Ha, Hbb, Haa.
  destruct (lookup_lt_is_Some_2 polygon vertex Hvertex) as [pv Hpv].
  destruct (lookup_lt_is_Some_2 polygon b Hb) as [pb Hpb].
  destruct (lookup_lt_is_Some_2 polygon a Ha) as [pa Hpa].
  destruct (lookup_lt_is_Some_2 polygon bb Hbb) as [pbb Hpbb].
  destruct (lookup_lt_is_Some_2 polygon aa Haa) as [paa Hpaa].
  assert (Hsb := store_in_range polygon b).
  assert (Hsa := store_in_range polygon a).
  repeat (first
    [ rewrite Hstore | rewrite Hprev | rewrite Hnext | rewrite Hprev2
    | rewrite Hnext2 | rewrite Hpv | rewrite Hpb | rewrite Hpa
    | rewrite Hpbb | rewrite Hpaa
    | rewrite Hsb by exact Hb | rewrite Hsa by exact Ha
    | progress cbn | case_match ]);
    eauto.
Qed.

(** [emplace] adds its entry and keeps the others. *)
Lemma emplace_perm (e : nat * Z) (queue : list (nat * Z)) :
  emplace e queue ≡ₚ e :: queue.
Proof.
  induction queue as [|x queue IH]; cbn; [reflexivity|].
  case_match; [|reflexivity].
  rewrite IH. apply Permutation_swap.
Qed.

(** Setting a flag takes away one survivor at most, and exactly one when
    the flag was not set. *)
Lemma survivors_insert (flags : list bool) (v : nat) :
  (survivors flags <= S (survivors (<[v := true]> flags)))%nat.
Proof.
  unfold survivors. revert v.
  induction flags as [|b flags IH]; intros [|v]; try (cbn; lia).
  - change (<[0%nat := true]> (b :: flags)) with (true :: flags).
    rewrite !filter_cons.
    repeat case_decide; cbn [length]; try congruence; lia.
  - change (<[S v := true]> (b :: flags)) with (b :: <[v := true]> flags).
    rewrite !filter_cons. specialize (IH v).
    repeat case_decide; cbn [length]; lia.
Qed.

Lemma survivors_replicate (n : nat) : survivors (replicate n false) = n.
Proof.
  unfold survivors. induction n as [|n IH]; [reflexivity|].
  change (replicate (S n) false) with (false :: replicate n false).
  rewrite filter_cons, decide_True by reflexivity. cbn [length]. now rewrite IH.
Qed.

Lemma survivors_bound (flags : list bool) :
  (survivors flags <= length flags)%nat.
Proof. apply length_filter. Qed.

(** A round of the removal loop keeps the invariant. *)
Lemma step_invariant (n : nat) (is_closed : bool) (st st' : State) :
  loop_invariant n st ->
  simplify_step self is_closed st = Some st' ->
  loop_invariant n st'.
Proof.
  intros (Hres & Hflags & Hlen & Hnodup & Hfree) Hstep.
  apply step_cases in Hstep
    as (v & k & popped & d & Hq & _ & Hcases).
  rewrite Hq in *. cbn [length] in Hlen.
  rewrite fmap_cons in Hnodup. apply NoDup_cons in Hnodup as [Hnotin Hnodup].
  apply Forall_cons in Hfree as [Hv Hfree]. cbn [fst] in Hv, Hnotin.
  unfold loop_invariant.
  destruct Hcases as [(_ & ->)|[(_ & _ & ->)|(_ & _ & Hrm)]];
    cbn [by_importance result to_delete].
  - rewrite !emplace_perm. rewrite fmap_cons. cbn [length fst].
    split_and!; auto;
      try (now apply NoDup_cons); try (now apply Forall_cons).
  - split_and!; auto; lia.
  - destruct Hrm as (polygon' & flags' & Hrm & ->).
    cbn [by_importance result to_delete].
    apply remove_flags in Hrm as (Hf & Hp).
    assert (Hres' : length polygon' = n) by lia.
    destruct Hf as [->| ->]; split_and!; auto; try lia.
    + now rewrite length_insert.
    + pose proof (survivors_insert (to_delete st) v). lia.
    + apply Forall_forall. intros e He.
      rewrite list_lookup_insert_ne.
      * rewrite Forall_forall in Hfree. now apply Hfree.
      * intros ->. apply Hnotin. now apply list_elem_of_fmap_2.
Qed.

(** A round of the removal loop is defined in every state that satisfies
    the invariant and has an entry queued. *)
Lemma step_defined (n : nat) (is_closed : bool) (st : State) :
  loop_invariant n st ->
  by_importance st <> [] ->
  is_Some (simplify_step self is_closed st).
Proof.
  intros (Hres & Hflags & _ & _ & Hfree) Hq. unfold simplify_step.
  destruct (by_importance st) as [|[v k] popped]; [congruence|].
  apply Forall_cons in Hfree as [Hv _]. cbn in Hv. cbn [fst snd].
  assert (Hlt : (v < length (result st))%nat)
    by (apply lookup_lt_Some in Hv; lia).
  destruct (importance_defined (result st) (to_delete st) v v is_closed)
    as [d ->]; [lia|exact Hlt|exact Hv|].
  cbn. repeat case_match; eauto.
  destruct (remove_defined (result st) (to_delete st) v v d is_closed)
    as [[polygon' flags'] ->]; [lia|exact Hlt|exact Hv|].
  cbn. eauto.
Qed.

(** A round of the removal loop lowers the potential. *)
Lemma step_potential (n : nat) (is_closed : bool) (st st' : State) :
  loop_invariant n st ->
  simplify_step self is_closed st = Some st' ->
  (potential self n is_closed st' < potential self n is_closed st)%nat.
Proof.
  intros (Hres & Hflags & Hlen & Hnodup & Hfree) Hstep.
  assert (Hbound : (length (by_importance st) <= n)%nat).
  { pose proof (survivors_bound (to_delete st)). lia. }
  assert (Hshort : forall popped result' flags',
    length (by_importance st) = S (length popped) ->
    (potential self n is_closed
       {| by_importance := popped; result := result'; to_delete := flags' |}
     < potential self n is_closed st)%nat).
  { intros popped result' flags' Hq. unfold potential, stale. cbn.
    pose proof (length_filter
      (fun e => importance self result' flags' e.1 is_closed <> Some e.2) popped).
    rewrite Hq. nia. }
  apply step_cases in Hstep
    as (v & k & popped & d & Hq & Himp & Hcases).
  destruct Hcases as [(Hne & ->)|[(_ & _ & ->)|(_ & _ & Hrm)]].
  - unfold potential, stale. cbn. rewrite Hq.
    rewrite !emplace_perm. rewrite !filter_cons. cbn [fst snd].
    rewrite decide_False by (intros Hs; now apply Hs).
    rewrite decide_True by congruence. cbn. lia.
  - apply Hshort. now rewrite Hq.
  - destruct Hrm as (polygon' & flags' & _ & ->). apply Hshort. now rewrite Hq.
Qed.

(** The removal loop ends within the rounds its potential counts. *)
Lemma loop_terminates (n : nat) (is_closed : bool) (fuel : nat) (st : State) :
  loop_invariant n st ->
  (potential self n is_closed st <= fuel)%nat ->
  is_Some (simplify_loop self fuel is_closed st).
Proof.
  revert st. induction fuel as [|fuel IH]; intros st Hinv Hpot; cbn;
    case_decide; eauto.
  - unfold potential in Hpot. nia.
  - destruct (step_defined n is_closed st Hinv) as [st' Hstep].
    { intros Hq. rewrite Hq in *. cbn in *. lia. }
    rewrite Hstep. cbn. apply IH.
    + eapply step_invariant; eauto.
    + pose proof (step_potential n is_closed st st' Hinv Hstep). lia.
Qed.

(** The first loop of [simplify] queues every index it is given. *)
Lemma add_initial_defined (polygon : Polygon) (is_closed : bool)
    (indices : list nat) (queue : list (nat * Z)) :
  Forall (fun i => (i < length polygon)%nat) indices ->
  exists queue',
    add_initial self polygon (replicate (length polygon) false) is_closed
      indices queue = Some queue'
    /\ queue'.*1 ≡ₚ indices ++ queue.*1.
Proof.
  revert queue. induction indices as [|i indices IH]; intros queue Hall.
  - exists queue. split; reflexivity.
  - apply Forall_cons in Hall as [Hi Hall]. cbn [add_initial].
    destruct (importance_defined polygon (replicate (length polygon) false)
                i i is_closed) as [d ->].
    + apply length_replicate.
    + exact Hi.
    + now apply lookup_replicate_2.
    + cbn. destruct (IH (emplace (i, d) queue) Hall) as (queue' & -> & Hperm).
      exists queue'. split; [reflexivity|].
      rewrite Hperm, emplace_perm, fmap_cons. cbn [fst].
      symmetry. apply Permutation_middle.
Qed.

(** [simplify] enters the removal loop in a state that satisfies the
    invariant, with every vertex queued. *)
Lemma initial_state_defined (polygon : Polygon) (is_closed : bool) :
  exists st0,
    initial_state self polygon is_closed = Some st0
    /\ loop_invariant (length polygon) st0
    /\ length (by_importance st0) = length polygon
    /\ result st0 = polygon
    /\ to_delete st0 = replicate (length polygon) false.
Proof.
  unfold initial_state.
  destruct (add_initial_defined polygon is_closed (seq 0 (length polygon)) [])
    as (queue & -> & Hperm).
  { apply Forall_forall. intros i Hi. apply elem_of_seq in Hi. lia. }
  rewrite app_nil_r in Hperm. cbn.
  assert (Hlen : length queue = length polygon).
  { rewrite <- (length_fmap fst queue), Hperm. apply length_seq. }
  eexists. split; [reflexivity|].
  unfold loop_invariant. cbn [by_importance result to_delete].
  split_and!; auto.
  - apply length_replicate.
  - rewrite survivors_replicate. lia.
  - rewrite Hperm. apply NoDup_seq.
  - apply Forall_forall. intros [i k] Hi. cbn.
    apply lookup_replicate_2.
    assert (Hin : i ∈ queue.*1) by (apply (list_elem_of_fmap_2 fst) in Hi; exact Hi).
    rewrite Hperm in Hin. apply elem_of_seq in Hin. lia.
Qed.

(** The rounds that [removal] grants are enough: the removal loop of
    [simplify] ends, for every polygon. *)
Lemma simplify_loop_terminates (polygon : Polygon) (is_closed : bool) :
  is_Some (removal self polygon is_closed).
Proof.
  unfold removal.
  destruct (initial_state_defined polygon is_closed)
    as (st0 & -> & Hinv & Hlen & _). cbn.
  apply (loop_terminates (length polygon)); [exact Hinv|].
  unfold potential, rounds, stale. rewrite Hlen.
  pose proof (length_filter
    (fun e => importance self (result st0) (to_delete st0) e.1 is_closed
              <> Some e.2) (by_importance st0)).
  nia.
Qed.

(** The states of a run satisfy the invariant, and keep three entries
    queued if the first state has three. *)
Lemma run_invariant (n : nat) (is_closed : bool) (st st' : State) :
  run self is_closed st st' ->
  loop_invariant n st ->
  loop_invariant n st'.
Proof.
  induction 1 as [|st st1 st2 _ Hstep _ IH]; [auto|].
  intros Hinv. apply IH. eapply step_invariant; eauto.
Qed.

Lemma run_queue (is_closed : bool) (st st' : State) :
  run self is_closed st st' ->
  (3 <= length (by_importance st))%nat ->
  (3 <= length (by_importance st'))%nat.
Proof.
  induction 1 as [|st st1 st2 Hlong Hstep _ IH]; [auto|].
  intros _. apply IH.
  apply step_cases in Hstep
    as (v & k & popped & d & Hq & _ & [(_ & ->)|[(_ & _ & ->)|(_ & _ & Hrm)]]);
    rewrite Hq in Hlong; cbn [length] in Hlong;
    cbn [by_importance].
  - rewrite emplace_perm. cbn. lia.
  - lia.
  - destruct Hrm as (? & ? & _ & ->). cbn [by_importance]. lia.
Qed.

(** The final sweep is defined on vectors of one size, and leaves as many
    vertices as flags are not set. *)
Lemma sweep_defined (polygon : Polygon) (flags : list bool) :
  length flags = length polygon ->
  exists filtered, sweep polygon flags = Some filtered
                   /\ length filtered = survivors flags.
Proof.
  revert flags. induction polygon as [|p polygon IH]; intros [|b flags] Hlen;
    try discriminate.
  - exists []. split; reflexivity.
  - injection Hlen as Hlen. destruct (IH flags Hlen) as (filtered & Hsweep & Hn).
    assert (Hcount : survivors (b :: flags)
                     = if b then survivors flags else S (survivors flags)).
    { unfold survivors. rewrite filter_cons.
      destruct b; [rewrite decide_False by discriminate
                  |rewrite decide_True by reflexivity]; reflexivity. }
    cbn [sweep]. rewrite Hsweep, Hcount. cbn.
    eexists. split; [reflexivity|].
    destruct b; cbn [length]; lia.
Qed.

(** X19: [simplify] returns, for every polygon and polyline and whatever
    the geometric primitives compute: the removal loop ends, although it
    queues stale entries again, and no vertex is asked for outside the
    vectors. *)
Theorem simplify_total (polygon : Polygon) (is_closed : bool) :
  is_Some (simplify self polygon is_closed).
Proof.
  unfold simplify, removal_and_sweep. repeat case_decide; eauto.
  destruct (simplify_loop_terminates polygon is_closed) as [st Hst].
  rewrite Hst. cbn.
  unfold removal in Hst.
  destruct (initial_state_defined polygon is_closed)
    as (st0 & Hinit & Hinv & _). rewrite Hinit in Hst. cbn in Hst.
  apply loop_run in Hst.
  destruct (run_invariant _ _ _ _ Hst Hinv) as (Hres & Hflags & _).
  destruct (sweep_defined (result st) (to_delete st)) as (filtered & -> & _);
    [lia|eauto].
Qed.

(** X20: the vertex floor, where the size tests of [simplify] let the
    removal loop run: a polygon of more than 2 vertices, and a polyline of
    more than 3, is left with 3 vertices at least. *)
Theorem simplify_keeps_three (polygon filtered : Polygon) (is_closed : bool) :
  (length polygon > (if is_closed then 2 else 3))%nat ->
  simplify self polygon is_closed = Some filtered ->
  (3 <= length filtered)%nat.
Proof.
  intros Hsize. unfold simplify, removal_and_sweep.
  rewrite decide_False by (destruct is_closed; lia).
  rewrite decide_False by (destruct is_closed; lia).
  destruct (removal self polygon is_closed) as [st|] eqn:Hst; [|discriminate].
  cbn. intros Hsweep.
  unfold removal in Hst.
  destruct (initial_state_defined polygon is_closed)
    as (st0 & Hinit & Hinv & Hlen & _). rewrite Hinit in Hst. cbn in Hst.
  apply loop_run in Hst.
  destruct (run_invariant _ _ _ _ Hst Hinv) as (Hres & Hflags & Hq & _).
  assert (Hthree := run_queue _ _ _ Hst).
  destruct (sweep_defined (result st) (to_delete st)) as (f & Hf & Hn); [lia|].
  rewrite Hf in Hsweep. injection Hsweep as <-.
  destruct is_closed; lia.
Qed.

(** *** The end points of a polyline *)

(** [remove], called for an inner vertex of a polyline whose end points
    are not deleted, leaves the end points where they are. *)
Lemma remove_keeps_ends (polygon polygon' : Polygon) (flags flags' : list bool)
    (vertex : nat) (deviation2 : Z) :
  length flags = length polygon ->
  flags !! 0%nat = Some false ->
  flags !! (length polygon - 1)%nat = Some false ->
  (0 < vertex)%nat -> (vertex + 1 < length polygon)%nat ->
  remove self polygon flags vertex deviation2 false = Some (polygon', flags') ->
  polygon' !! 0%nat = polygon !! 0%nat
  /\ polygon' !! (length polygon - 1)%nat = polygon !! (length polygon - 1)%nat.
Proof.
  intros Hlen Hfirst Hlast Hv0 Hvn. unfold remove. intros Hrun.
  split_run; auto;
    match goal with H : (_ =? _)%nat = false |- _ => apply Nat.eqb_neq in H end.
  - match goal with H : previousNotDeleted vertex flags = Some ?b |- _ =>
      apply previousNotDeleted_below in H; [|auto|lia] end.
    rewrite !list_lookup_insert_ne by lia. auto.
  - match goal with H : nextNotDeleted vertex flags = Some ?a |- _ =>
      apply nextNotDeleted_above in H; [|rewrite Hlen; auto|lia] end.
    rewrite !list_lookup_insert_ne by lia. auto.
Qed.

(** A round of the removal loop of a polyline leaves the end points
    alone. *)
Lemma step_keeps_ends (polygon : Polygon) (st st' : State) :
  max_deviation self * max_deviation self < coord_max ->
  loop_invariant (length polygon) st ->
  ends_kept polygon st ->
  simplify_step self false st = Some st' ->
  ends_kept polygon st'.
Proof.
  intros Hmax (Hres & Hflags & _ & _ & Hfree) (Hf0 & Hfn & Hp0 & Hpn) Hstep.
  apply step_cases in Hstep
    as (v & k & popped & d & Hq & Himp & [(_ & ->)|[(_ & _ & ->)|(_ & Hd & Hrm)]]);
    try (now repeat split).
  destruct Hrm as (polygon' & flags' & Hrm & ->).
  rewrite Hq in Hfree. apply Forall_cons in Hfree as [Hv _]. cbn [fst] in Hv.
  apply importance_deviation in Himp as [Hprot _]; [|lia].
  unfold protected in Hprot. rewrite Hres in Hprot. cbn [negb andb] in Hprot.
  apply orb_false_elim in Hprot as [Hv0 Hvn].
  apply Nat.eqb_neq in Hv0, Hvn.
  assert (Hlt := lookup_lt_Some _ _ _ Hv).
  unfold ends_kept. cbn [result to_delete].
  destruct (remove_keeps_ends (result st) polygon' (to_delete st) flags' v d)
    as [Hq0 Hqn]; rewrite ?Hres; auto; try lia.
  rewrite Hres in Hqn. rewrite Hq0, Hqn.
  apply remove_flags in Hrm as ([->| ->] & _); split_and!; auto;
    rewrite list_lookup_insert_ne; auto.
Qed.

Lemma run_keeps_ends (polygon : Polygon) (st st' : State) :
  max_deviation self * max_deviation self < coord_max ->
  run self false st st' ->
  loop_invariant (length polygon) st ->
  ends_kept polygon st ->
  ends_kept polygon st'.
Proof.
  intros Hmax. induction 1 as [|st st1 st2 _ Hstep _ IH]; [auto|].
  intros Hinv Hends. apply IH.
  - eapply step_invariant; eauto.
  - eapply step_keeps_ends; eauto.
Qed.

(** The final sweep keeps the first and the last vertex when they are not
    deleted. *)
Lemma sweep_head (polygon filtered : Polygon) (flags : list bool) :
  flags !! 0%nat = Some false ->
  sweep polygon flags = Some filtered ->
  head filtered = head polygon.
Proof.
  intros Hfirst Hsweep.
  destruct polygon as [|p polygon]; cbn in Hsweep.
  - now injection Hsweep as <-.
  - destruct flags as [|[|] flags]; try discriminate.
    destruct (sweep polygon flags); [|discriminate].
    cbn in Hsweep. now injection Hsweep as <-.
Qed.

Lemma sweep_last (polygon filtered : Polygon) (flags : list bool) :
  length flags = length polygon ->
  flags !! (length polygon - 1)%nat = Some false ->
  sweep polygon flags = Some filtered ->
  last filtered = last polygon.
Proof.
  revert flags filtered.
  induction polygon as [|p polygon IH]; intros [|b flags] filtered Hlen Hlast;
    try discriminate.
  injection Hlen as Hlen. cbn [sweep].
  destruct (sweep polygon flags) as [rest|] eqn:Hrest; [|discriminate].
  cbn. intros [= <-].
  destruct polygon as [|q polygon].
  - destruct flags; [|discriminate]. cbn in Hrest. injection Hrest as <-.
    cbn in Hlast. injection Hlast as ->. reflexivity.
  - assert (Hrec : last rest = last (q :: polygon)).
    { apply (IH flags); auto.
      cbn [length] in *. now replace (S (length polygon) - 1)%nat
        with (length polygon) by lia. }
    rewrite last_cons_cons, <- Hrec.
    destruct b; [reflexivity|].
    destruct rest as [|r rest].
    + symmetry in Hrec. apply last_None in Hrec. discriminate Hrec.
    + now rewrite last_cons_cons.
Qed.

(** X21: the end points of a polyline, where the size tests of
    [simplify] let it through: of a polyline of 3 vertices or more,
    [simplify] returns the first and the last vertex, in first and last
    place. *)
Theorem polyline_keeps_ends (polygon filtered : Polygon) :
  max_deviation self * max_deviation self < coord_max ->
  (3 <= length polygon)%nat ->
  simplify self polygon false = Some filtered ->
  head filtered = head polygon /\ last filtered = last polygon.
Proof.
  intros Hmax Hsize. unfold simplify, removal_and_sweep.
  rewrite decide_False by lia.
  case_decide; [now intros [= <-]|].
  destruct (removal self polygon false) as [st|] eqn:Hst; [|discriminate].
  cbn. intros Hsweep.
  unfold removal in Hst.
  destruct (initial_state_defined polygon false)
    as (st0 & Hinit & Hinv & Hlen & Hres0 & Hflags0).
  rewrite Hinit in Hst. cbn in Hst. apply loop_run in Hst.
  assert (Hends0 : ends_kept polygon st0).
  { unfold ends_kept. rewrite Hres0, Hflags0.
    split_and!; auto; apply lookup_replicate_2; lia. }
  destruct (run_keeps_ends polygon st0 st Hmax Hst Hinv Hends0)
    as (Hf0 & Hfn & Hp0 & Hpn).
  destruct (run_invariant _ _ _ _ Hst Hinv) as (Hres & Hflags & _).
  split.
  - rewrite (sweep_head _ _ _ Hf0 Hsweep). rewrite !head_lookup. exact Hp0.
  - assert (Hlast : last filtered = last (result st)).
    { apply (sweep_last _ _ (to_delete st)); [lia|now rewrite Hres|exact Hsweep]. }
    rewrite Hlast. rewrite !last_lookup, Hres.
    now replace (pred (length polygon)) with (length polygon - 1)%nat by lia.
Qed.
End SimplifyFacts.

(** *** Scenarios *)

Section Scenarios.
Import Simplify.

(** C1, as stated, fails: with [max_deviation] 10, [simplify] does not
    reduce the polyline (0,0), (50,1), (100,0) to its two end points. *)
Lemma triple_not_reduced :
  1 <= max_deviation coarse
  /\ simplify (G := geometry64) coarse triple false <> Some [pt 0 0; pt 100 0].
Proof. split; [cbn; lia | vm_compute; discriminate]. Qed.

(** C1, as the code has it: whatever the settings and the geometric
    primitives, [simplify] returns the polyline (0,0), (50,1), (100,0)
    as it is; and so does the removal loop with the final sweep, which
    [simplify] does not enter for three vertices: it removes nothing
    while no more than three entries are queued. *)
Theorem triple_unchanged `{G : Geometry} (self : Simplify) :
  simplify self triple false = Some triple
  /\ removal_and_sweep self triple false = Some triple.
Proof.
  split; [reflexivity|].
  unfold removal_and_sweep, removal.
  destruct (initial_state_defined self triple false)
    as (st0 & -> & _ & Hlen & Hres & Hflags).
  cbn [mbind option_bind]. unfold rounds. cbn [length triple Nat.mul Nat.add].
  cbn [simplify_loop]. rewrite decide_False by (rewrite Hlen; cbn; lia).
  cbn [mbind option_bind]. rewrite Hres, Hflags. reflexivity.
Qed.

(** C2, on the code: a polyline of two vertices, which is at its
    structural minimum, comes back empty, and a closed polygon of two
    vertices, which is below its minimum, comes back as it is, whatever the
    settings. *)
Theorem segment_at_size_tests `{G : Geometry} (self : Simplify) :
  simplify self segment false = Some []
  /\ simplify self segment true = Some segment.
Proof. split; reflexivity. Qed.

(** C7, on the code: of a polyline of two vertices [simplify] returns
    neither end point. *)
Theorem segment_ends_lost `{G : Geometry} (self : Simplify) :
  exists filtered,
    simplify self segment false = Some filtered
    /\ (pt 0 0 ∉ filtered) /\ (pt 100 0 ∉ filtered).
Proof.
  exists []. split; [reflexivity|]. split; apply not_elem_of_nil.
Qed.

(** The run of [pentagon] under [fine], and of [arch] under [coarse]. *)
Lemma pentagon_fine_run :
  removal (G := geometry64) fine pentagon true = Some pentagon_end.
Proof. vm_compute. reflexivity. Qed.

Lemma arch_coarse_run :
  removal (G := geometry64) coarse arch false = Some arch_end
  /\ simplify (G := geometry64) coarse arch false = Some arch_flat.
Proof. split; vm_compute; reflexivity. Qed.

(** C8, as stated, fails: under [fine], whose [max_deviation] is 1,
    the second vertex of [pentagon] stays, 2 units off the line through
    its neighbours, which is within the [min_resolution] of 5, and all five
    vertices are left. *)
Lemma noise_floor_not_cleared :
  ~ noise_floor_cleared (G := geometry64) fine pentagon true.
Proof.
  intros Hclaim.
  specialize (Hclaim pentagon_end 1%nat 4 pentagon_fine_run).
  assert (Hsurvive : (survivors (to_delete pentagon_end) <= 3)%nat).
  { apply Hclaim; try reflexivity. cbn. lia. }
  vm_compute in Hsurvive. lia.
Qed.

(** C9, as stated, fails: under [coarse], whose [max_deviation] is 10,
    [simplify] flattens [arch] to its base and removes the top of the arch,
    which is 15 units from the line through the base and 400 from the line
    through the other edge. *)
Lemma deviation_bound_broken :
  ~ deviation_bound (G := geometry64) coarse arch false.
Proof.
  intros Hclaim. destruct arch_coarse_run as [Hrun Hsimplify].
  destruct (Hclaim arch_end arch_flat 2%nat (pt 400 15) Hrun Hsimplify
              eq_refl eq_refl) as (e & He & Hnear).
  cbn in He.
  apply elem_of_cons in He as [->|He];
    [|apply elem_of_cons in He as [->|He]; [|now apply elem_of_nil in He]];
    vm_compute in Hnear; discriminate Hnear.
Qed.

(** [remove_frame] at the cut corner of [chamfered]: the edge after the
    second vertex is the shorter one, the second vertex is deleted and the
    third goes to the corner (1010, 0), where the lines through the two
    long edges meet; no other vertex moves. *)
Lemma remove_frame_witness :
  remove (G := geometry64) medium chamfered (replicate 5 false) 1 98 true
  = Some (chamfer_removed, <[1%nat := true]> (replicate 5 false))
  /\ chamfer_removed !! 2%nat = Some (pt 1010 0)
  /\ (forall i, i <> 2%nat -> chamfer_removed !! i = chamfered !! i).
Proof.
  assert (Hrun : remove (G := geometry64) medium chamfered (replicate 5 false)
                   1 98 true
                 = Some (chamfer_removed, <[1%nat := true]> (replicate 5 false)))
    by (vm_compute; reflexivity).
  split; [exact Hrun|].
  destruct (remove_frame (G := geometry64) medium _ _ _ _ _ _ _ Hrun)
    as (_ & _ & _ & _ & Hbranch).
  destruct Hbranch
    as (before & after & pv & pb & pa & Hb & Ha & Hpv & Hpb & Hpa & Hcases);
    [cbn; lia|].
  vm_compute in Hb, Ha. injection Hb as <-. injection Ha as <-.
  vm_compute in Hpv, Hpb, Hpa.
  injection Hpv as <-. injection Hpb as <-. injection Hpa as <-.
  cbv zeta in Hcases. destruct Hcases as (_ & _ & Hmove).
  destruct Hmove as (beyond & far_from & far_to & Hsel & Hmeet).
  - intros [Hshort _]. vm_compute in Hshort. now apply Hshort.
  - reflexivity.
  - cbn in Hsel. destruct Hsel as (Hbeyond & Hfar & ->).
    vm_compute in Hbeyond. injection Hbeyond as <-.
    vm_compute in Hfar. injection Hfar as <-.
    cbn in Hmeet. destruct Hmeet as (_ & _ & Hthere & Hothers).
    split; [exact Hthere|exact Hothers].
Defined.

(** [removed_within_deviation] for the top of [arch]. *)
Lemma removed_within_deviation_witness :
  exists st0 st1 st2 d,
    initial_state (G := geometry64) coarse arch false = Some st0
    /\ run (G := geometry64) coarse false st0 st1
    /\ simplify_step (G := geometry64) coarse false st1 = Some st2
    /\ run (G := geometry64) coarse false st2 arch_end
    /\ to_delete st1 !! 2%nat = Some false
    /\ to_delete st2 !! 2%nat = Some true
    /\ deviation2_at (G := geometry64) (result st1) (to_delete st1) 2 = Some d
    /\ d <= max_deviation coarse * max_deviation coarse.
Proof.
  apply (removed_within_deviation (G := geometry64) coarse arch false arch_end 2).
  - vm_compute. reflexivity.
  - vm_compute. reflexivity.
  - reflexivity.
Defined.

(** [noise_floor_step] for the second vertex of [pentagon] under
    [medium], whose [max_deviation] exceeds [min_resolution]. *)
Lemma noise_floor_step_witness :
  initial_state (G := geometry64) medium pentagon true = Some pentagon_start
  /\ simplify_step (G := geometry64) medium true pentagon_start
     = Some {| by_importance := tail (by_importance pentagon_start);
               result := pentagon;
               to_delete := <[1%nat := true]> (replicate 5 false) |}.
Proof.
  split; [vm_compute; reflexivity|].
  refine (proj1 (noise_floor_step (G := geometry64) medium true pentagon_start
                   1 4 (tail (by_importance pentagon_start))
                   eq_refl eq_refl eq_refl _ _) _).
  - cbn. lia.
  - cbn. lia.
  - cbn. lia.
Defined.

End Scenarios.

(** * Further properties *)

(** ** Beading strategy *)

Section BeadingMore.
Import Beading.

(** The locations of [compute], index by index. *)
Lemma location_at (thickness bead_count : Z) (i : nat) :
  0 <= thickness -> 0 < bead_count ->
  toolpath_locations (compute thickness bead_count) !! i
  = if decide (i < Z.to_nat bead_count)%nat
    then Some (thickness * (2 * Z.of_nat i + 1) / (2 * bead_count))
    else None.
Proof.
  intros Ht Hb. unfold compute.
  destruct (Z.ltb_spec 0 bead_count) as [_|]; [|lia].
  cbn [toolpath_locations].
  rewrite compute_loop_spec by lia. rewrite Z2Nat.id by lia. cbn [app].
  rewrite list_lookup_fmap.
  case_decide as Hi.
  - rewrite lookup_seqZ_lt by lia. cbn. f_equal.
    rewrite halves_after by nia. f_equal. lia.
  - rewrite lookup_seqZ_ge by lia. reflexivity.
Qed.

(** The sum of [n] equal widths. *)
Lemma sum_replicate (n : nat) (w : Z) :
  foldr Z.add 0 (replicate n w) = Z.of_nat n * w.
Proof.
  induction n as [|n IH]; [reflexivity|].
  cbn [replicate foldr]. rewrite IH. lia.
Qed.

(** X1: whatever the signs of its arguments, [compute] returns as many
    widths as locations, [bead_count] of each and none when [bead_count] is
    not positive, and records the thickness it was asked to cover; without
    beads all of that thickness is left over. *)
Theorem compute_shape (thickness bead_count : Z) :
  let b := compute thickness bead_count in
  length (bead_widths b) = Z.to_nat bead_count
  /\ length (toolpath_locations b) = Z.to_nat bead_count
  /\ total_thickness b = thickness
  /\ left_over b = (if 0 <? bead_count then 0 else thickness).
Proof.
  unfold compute.
  destruct (Z.ltb_spec 0 bead_count) as [Hb|Hb]; cbn.
  - rewrite length_replicate.
    rewrite compute_loop_spec by lia. cbn [app].
    rewrite length_map, length_seqZ. auto using Nat2Z.id.
  - replace (Z.to_nat bead_count) with 0%nat by lia. auto.
Qed.

(** X2: the widths that [compute] returns add up to the thickness less
    the remainder of its division by [bead_count]: the beads never cover
    more than the thickness, and they miss less than [bead_count] units of
    it, which are not reported in [left_over]. *)
Theorem compute_widths_sum (thickness bead_count : Z) :
  0 <= thickness -> 0 < bead_count ->
  let b := compute thickness bead_count in
  foldr Z.add 0 (bead_widths b) = thickness - thickness mod bead_count
  /\ thickness - bead_count < foldr Z.add 0 (bead_widths b) <= thickness
  /\ left_over b = 0.
Proof.
  intros Ht Hb. unfold compute.
  destruct (Z.ltb_spec 0 bead_count) as [_|]; [|lia].
  cbn [bead_widths left_over].
  rewrite sum_replicate, Z2Nat.id by lia.
  rewrite quot_is_div by lia.
  pose proof (Z.mod_pos_bound thickness bead_count Hb).
  pose proof (Z.div_mod thickness bead_count ltac:(lia)).
  split_and!; try reflexivity; lia.
Qed.

(** [compute_widths_sum] for a thickness of 10 and 4 beads: the widths add
    up to 8. *)
Lemma compute_widths_sum_witness :
  let b := compute 10 4 in
  foldr Z.add 0 (bead_widths b) = 10 - 10 mod 4
  /\ 10 - 4 < foldr Z.add 0 (bead_widths b) <= 10
  /\ left_over b = 0.
Proof. exact (compute_widths_sum 10 4 ltac:(lia) ltac:(lia)). Defined.

(** X3: the locations that [compute] returns for a thickness that is not
    negative lie between 0 and the thickness, each of them, and below the
    thickness when it is positive; they never decrease along the
    sequence, and they increase as soon as the thickness is at least
    [bead_count] units. *)
Theorem compute_locations_ordered (thickness bead_count : Z) :
  0 <= thickness -> 0 < bead_count ->
  let locations := toolpath_locations (compute thickness bead_count) in
  (forall (i : nat) (li : Z),
     locations !! i = Some li ->
     0 <= li <= thickness /\ (0 < thickness -> li < thickness))
  /\ (forall (i j : nat) (li lj : Z),
        locations !! i = Some li -> locations !! j = Some lj -> (i < j)%nat ->
        li <= lj /\ (bead_count <= thickness -> li < lj)).
Proof.
  intros Ht Hb. cbv zeta. split.
  - intros i li Hi. rewrite location_at in Hi by lia.
    case_decide as Hbi; [|discriminate]. injection Hi as <-.
    set (x := thickness * (2 * Z.of_nat i + 1)).
    assert (Hx : 0 <= x) by (unfold x; nia).
    split_and!.
    + apply Z.div_pos; lia.
    + apply Z.div_le_upper_bound; [lia|]. unfold x. nia.
    + intros Hpos. apply Z.div_lt_upper_bound; [lia|]. unfold x. nia.
  - intros i j li lj Hi Hj Hij.
    rewrite location_at in Hi, Hj by lia.
    case_decide as Hbi; [|discriminate]. case_decide as Hbj; [|discriminate].
    injection Hi as <-. injection Hj as <-.
    set (x := thickness * (2 * Z.of_nat i + 1)).
    set (y := thickness * (2 * Z.of_nat j + 1)).
    assert (Hx : 0 <= x) by (unfold x; nia).
    assert (Hxy : x + thickness * 2 <= y) by (unfold x, y; nia).
    split.
    + apply Z.div_le_mono; lia.
    + intros Hwide.
      apply Z.lt_le_trans with (m := (x + 1 * (2 * bead_count)) / (2 * bead_count)).
      * rewrite Z.div_add by lia. lia.
      * apply Z.div_le_mono; lia.
Qed.

(** [compute_locations_ordered] for 4 beads over a thickness of 10, and
    for a single bead over a thickness of 7, whose one location is 3. *)
Lemma compute_locations_ordered_witness :
  toolpath_locations (compute 10 4) = [1; 3; 6; 8]
  /\ (0 <= 3 <= 10 /\ (0 < 10 -> 3 < 10))
  /\ (3 <= 6 /\ (4 <= 10 -> 3 < 6))
  /\ toolpath_locations (compute 7 1) = [3]
  /\ (0 <= 3 <= 7 /\ (0 < 7 -> 3 < 7)).
Proof.
  destruct (compute_locations_ordered 10 4 ltac:(lia) ltac:(lia))
    as [Hrange Horder].
  destruct (compute_locations_ordered 7 1 ltac:(lia) ltac:(lia))
    as [Hsingle _].
  split; [reflexivity|]. split; [exact (Hrange 1%nat 3 eq_refl)|].
  split; [exact (Horder 1%nat 2%nat 3 6 eq_refl eq_refl ltac:(lia))|].
  split; [reflexivity|]. exact (Hsingle 0%nat 3 eq_refl).
Defined.

(** X4: for a positive [optimal_width] and a thickness that is not
    negative, [getOptimalBeadCount] returns the count whose optimal
    thickness is nearest: the thickness lies at most half a bead (rounded
    down) below it and less than the other half above it. *)
Theorem optimal_bead_count_nearest (self : DistributedBeadingStrategy)
    (thickness : Z) :
  0 < optimal_width self -> 0 <= thickness ->
  let n := getOptimalBeadCount self thickness in
  0 <= n
  /\ getOptimalThickness self n - optimal_width self ÷ 2 <= thickness
  /\ thickness
     < getOptimalThickness self n + (optimal_width self - optimal_width self ÷ 2).
Proof.
  intros Hw Ht. unfold getOptimalBeadCount, getOptimalThickness.
  set (w := optimal_width self) in *.
  assert (Hhalf : 0 <= w ÷ 2) by (apply Z.quot_pos; lia).
  rewrite (quot_is_div (thickness + w ÷ 2)) by lia.
  pose proof (Z.div_mod (thickness + w ÷ 2) w ltac:(lia)).
  pose proof (Z.mod_pos_bound (thickness + w ÷ 2) w Hw).
  split_and!; [apply Z.div_pos; lia|nia|nia].
Qed.

(** [optimal_bead_count_nearest] for a thickness of 1399 and beads of
    400 units. *)
Lemma optimal_bead_count_nearest_witness :
  let n := getOptimalBeadCount usual_strategy 1399 in
  0 <= n
  /\ getOptimalThickness usual_strategy n - optimal_width usual_strategy ÷ 2 <= 1399
  /\ 1399 < getOptimalThickness usual_strategy n
            + (optimal_width usual_strategy - optimal_width usual_strategy ÷ 2).
Proof.
  exact (optimal_bead_count_nearest usual_strategy 1399 ltac:(cbn; lia) ltac:(lia)).
Defined.

(** X5: for a positive [optimal_width], [getOptimalBeadCount] never
    decreases when the thickness grows, whatever the sign of the
    thickness. *)
Theorem optimal_bead_count_monotone (self : DistributedBeadingStrategy)
    (thinner thicker : Z) :
  0 < optimal_width self -> thinner <= thicker ->
  getOptimalBeadCount self thinner <= getOptimalBeadCount self thicker.
Proof.
  intros Hw Hle. unfold getOptimalBeadCount.
  apply Z.quot_le_mono; lia.
Qed.

(** [optimal_bead_count_monotone] across the sign of the thickness. *)
Lemma optimal_bead_count_monotone_witness :
  getOptimalBeadCount usual_strategy (-900) <= getOptimalBeadCount usual_strategy 700.
Proof.
  exact (optimal_bead_count_monotone usual_strategy (-900) 700
           ltac:(cbn; lia) ltac:(lia)).
Defined.

(** X6: for a positive [optimal_width], [n] not negative with
    [(n + 1) * optimal_width] below [2 ^ precision], and a threshold from
    0 to 1, the transition thicknesses are spaced like the optimal ones,
    up to one unit: that of [n] beads is the optimal thickness of [n]
    beads plus the transition thickness of no bead, or one unit more,
    where the sum of the optimal thickness and the offset is rounded up
    to a whole number. *)
Theorem transition_spacing {F : FloatFormat} (self : DistributedBeadingStrategy)
    (n : Z) :
  0 < optimal_width self -> 0 <= n ->
  (n + 1) * optimal_width self < 2 ^ precision ->
  is_finite (wall_transition_threshold self) = true ->
  (0 <= SF2Q (wall_transition_threshold self) <= 1)%Q ->
  exists first nth,
    getTransitionThickness self 0 = Some first
    /\ getTransitionThickness self n = Some nth
    /\ getOptimalThickness self n + first <= nth
       <= getOptimalThickness self n + first + 1.
Proof.
  intros Hw Hn Hrange Hfin Ht. unfold getOptimalThickness.
  destruct (transition_pair self n Hw Hn Hrange Hfin Ht)
    as (first & nth & H0 & Hnth & _ & Hlow & Hup & _).
  exists first, nth. auto.
Qed.

(** [transition_spacing] for three beads of 400 units and a threshold of
    0.29, in the arithmetic of a [double]: the offset 115.99999999999999
    gives 115 for no bead, and its sum with 1200 is rounded to 1316. *)
Lemma transition_spacing_witness :
  getTransitionThickness (F := binary64) early_strategy 0 = Some 115
  /\ getTransitionThickness (F := binary64) early_strategy 3 = Some 1316
  /\ exists first nth,
       getTransitionThickness (F := binary64) early_strategy 0 = Some first
       /\ getTransitionThickness (F := binary64) early_strategy 3 = Some nth
       /\ getOptimalThickness early_strategy 3 + first <= nth
          <= getOptimalThickness early_strategy 3 + first + 1.
Proof.
  split; [reflexivity|]. split; [reflexivity|].
  refine (transition_spacing (F := binary64) early_strategy 3 _ _ _ _ _).
  - cbn. lia.
  - lia.
  - cbn. lia.
  - reflexivity.
  - split; vm_compute; discriminate.
Defined.

(** X7: under the same conditions, the optimal bead count of the
    transition thickness of [n] beads is [n] or [n + 1]: it is [n] when
    the transition thickness of no bead, and one unit, stay below the upper
    half of a bead, and [n + 1] when the transition thickness of no bead
    reaches that half. *)
Theorem transition_bead_count {F : FloatFormat}
    (self : DistributedBeadingStrategy) (n : Z) :
  0 < optimal_width self -> 0 <= n ->
  (n + 1) * optimal_width self < 2 ^ precision ->
  is_finite (wall_transition_threshold self) = true ->
  (0 <= SF2Q (wall_transition_threshold self) <= 1)%Q ->
  exists first nth,
    getTransitionThickness self 0 = Some first
    /\ getTransitionThickness self n = Some nth
    /\ n <= getOptimalBeadCount self nth <= n + 1
    /\ (first + 1 + optimal_width self ÷ 2 < optimal_width self ->
        getOptimalBeadCount self nth = n)
    /\ (optimal_width self <= first + optimal_width self ÷ 2 ->
        getOptimalBeadCount self nth = n + 1).
Proof.
  intros Hw Hn Hrange Hfin Ht.
  destruct (transition_pair self n Hw Hn Hrange Hfin Ht)
    as (first & nth & H0 & Hnth & Hfirst & Hlow & Hup & Hband).
  exists first, nth. split; [exact H0|]. split; [exact Hnth|].
  unfold getOptimalBeadCount.
  set (w := optimal_width self) in *.
  assert (Hhalf : 0 <= w ÷ 2 < w).
  { rewrite quot_is_div by lia. split.
    - apply Z.div_pos; lia.
    - apply Z.div_lt_upper_bound; lia. }
  rewrite quot_is_div by nia.
  assert (Hcount : forall k, k * w <= nth + w ÷ 2 < (k + 1) * w ->
                             (nth + w ÷ 2) / w = k).
  { intros k Hk. symmetry.
    apply Z.div_unique with (r := nth + w ÷ 2 - k * w); lia. }
  split_and!.
  - apply Z.div_le_lower_bound; lia.
  - apply Z.lt_succ_r, Z.div_lt_upper_bound; lia.
  - intros Hlower. apply Hcount. lia.
  - intros Hupper. apply Hcount. lia.
Qed.

(** [transition_bead_count] for three beads of 400 units and a threshold
    of one half, in the arithmetic of a [double]: the transition thickness
    1400 counts as four beads. *)
Lemma transition_bead_count_witness :
  getTransitionThickness (F := binary64) usual_strategy 0 = Some 200
  /\ getOptimalBeadCount usual_strategy 1400 = 3 + 1
  /\ exists first nth,
       getTransitionThickness (F := binary64) usual_strategy 0 = Some first
       /\ getTransitionThickness (F := binary64) usual_strategy 3 = Some nth
       /\ 3 <= getOptimalBeadCount usual_strategy nth <= 3 + 1
       /\ (first + 1 + optimal_width usual_strategy ÷ 2 < optimal_width usual_strategy ->
           getOptimalBeadCount usual_strategy nth = 3)
       /\ (optimal_width usual_strategy <= first + optimal_width usual_strategy ÷ 2 ->
           getOptimalBeadCount usual_strategy nth = 3 + 1).
Proof.
  split; [reflexivity|]. split; [reflexivity|].
  refine (transition_bead_count (F := binary64) usual_strategy 3 _ _ _ _ _).
  - cbn. lia.
  - lia.
  - cbn. lia.
  - reflexivity.
  - split; vm_compute; discriminate.
Defined.

End BeadingMore.

(** ** The search for neighbours *)

Section NeighboursMore.
Import Simplify.

(** The run of the search forwards: it returns the first candidate that is
    not deleted, after candidates that all are. *)
Lemma next_loop_run (flags : list bool) (fuel i j : nat) :
  (i < length flags)%nat ->
  next_loop fuel (length flags) flags i = Some j ->
  exists k, (k < fuel)%nat
            /\ j = ((i + k) mod length flags)%nat
            /\ flags !! j = Some false
            /\ forall k', (k' < k)%nat ->
                 flags !! ((i + k') mod length flags)%nat = Some true.
Proof.
  revert i. induction fuel as [|fuel IH]; intros i Hi; cbn [next_loop];
    [discriminate|].
  destruct (flags !! i) as [[|]|] eqn:Hflag; try discriminate.
  - intros Hj. apply IH in Hj as (k & Hk & -> & Hfree & Hbefore);
      [|apply Nat.mod_upper_bound; lia].
    rewrite Nat.Div0.add_mod_idemp_l in *.
    exists (S k). split; [lia|].
    replace (i + S k)%nat with (i + 1 + k)%nat by lia.
    split_and!; auto.
    intros [|k'] Hk'.
    + now rewrite Nat.add_0_r, Nat.mod_small.
    + specialize (Hbefore k' ltac:(lia)).
      rewrite Nat.Div0.add_mod_idemp_l in Hbefore.
      now replace (i + S k')%nat with (i + 1 + k')%nat by lia.
  - intros [= <-]. exists 0%nat.
    rewrite Nat.add_0_r, Nat.mod_small by exact Hi.
    split_and!; auto; lia.
Qed.

(** The search backwards, likewise. *)
Lemma previous_loop_run (flags : list bool) (fuel i j : nat) :
  (i < length flags)%nat -> (fuel <= length flags)%nat ->
  previous_loop fuel (length flags) flags i = Some j ->
  exists k, (k < fuel)%nat
            /\ j = ((i + length flags - k) mod length flags)%nat
            /\ flags !! j = Some false
            /\ forall k', (k' < k)%nat ->
                 flags !! ((i + length flags - k') mod length flags)%nat
                 = Some true.
Proof.
  set (size := length flags).
  assert (Hshift : forall i k, (k < size)%nat ->
    (((i + size - 1) mod size + size - k) mod size
     = (i + size - S k) mod size)%nat).
  { intros i0 k Hk.
    rewrite <- Nat.add_sub_assoc by lia.
    rewrite Nat.Div0.add_mod_idemp_l.
    replace (i0 + size - 1 + (size - k))%nat
      with (i0 + size - S k + 1 * size)%nat by lia.
    now rewrite Nat.Div0.mod_add. }
  revert i. induction fuel as [|fuel IH]; intros i Hi Hfuel;
    cbn [previous_loop]; [discriminate|].
  destruct (flags !! i) as [[|]|] eqn:Hflag; try discriminate.
  - intros Hj. apply IH in Hj as (k & Hk & -> & Hfree & Hbefore);
      [|apply Nat.mod_upper_bound; lia|lia].
    rewrite Hshift in * by lia.
    exists (S k). split; [lia|]. split_and!; auto.
    intros [|k'] Hk'.
    + rewrite Nat.sub_0_r.
      replace (i + size)%nat with (i + 1 * size)%nat by lia.
      now rewrite Nat.Div0.mod_add, Nat.mod_small.
    + specialize (Hbefore k' ltac:(lia)).
      now rewrite Hshift in Hbefore by lia.
  - intros [= <-]. exists 0%nat.
    rewrite Nat.sub_0_r.
    replace (i + size)%nat with (i + 1 * size)%nat by lia.
    rewrite Nat.Div0.mod_add, Nat.mod_small by exact Hi.
    split_and!; auto; lia.
Qed.

(** The searches skip the candidates that are deleted and stop at the
    first that is not. *)
Lemma next_loop_skip (flags : list bool) (fuel i k : nat) :
  (i < length flags)%nat -> (k < fuel)%nat ->
  (forall k', (k' < k)%nat ->
     flags !! ((i + k') mod length flags)%nat = Some true) ->
  flags !! ((i + k) mod length flags)%nat = Some false ->
  next_loop fuel (length flags) flags i = Some ((i + k) mod length flags)%nat.
Proof.
  revert i k. induction fuel as [|fuel IH]; intros i k Hi Hk Hskip Hfree; [lia|].
  cbn [next_loop].
  destruct k as [|k].
  - rewrite Nat.add_0_r, (Nat.mod_small i) in Hfree by exact Hi.
    rewrite Nat.add_0_r, (Nat.mod_small i) by exact Hi. now rewrite Hfree.
  - pose proof (Hskip 0%nat ltac:(lia)) as Hhere.
    rewrite Nat.add_0_r, (Nat.mod_small i) in Hhere by exact Hi. rewrite Hhere.
    replace (i + S k)%nat with (i + 1 + k)%nat in Hfree |- * by lia.
    rewrite <- (Nat.Div0.add_mod_idemp_l (i + 1) k) in Hfree |- *.
    apply IH; auto.
    + apply Nat.mod_upper_bound. lia.
    + lia.
    + intros k' Hk'. specialize (Hskip (S k') ltac:(lia)).
      rewrite Nat.Div0.add_mod_idemp_l.
      now replace (i + S k')%nat with (i + 1 + k')%nat in Hskip by lia.
Qed.

Lemma previous_loop_skip (flags : list bool) (fuel i k : nat) :
  (i < length flags)%nat -> (k < fuel)%nat -> (k < length flags)%nat ->
  (forall k', (k' < k)%nat ->
     flags !! ((i + length flags - k') mod length flags)%nat = Some true) ->
  flags !! ((i + length flags - k) mod length flags)%nat = Some false ->
  previous_loop fuel (length flags) flags i
  = Some ((i + length flags - k) mod length flags)%nat.
Proof.
  set (size := length flags).
  assert (Hshift : forall i k, (k < size)%nat ->
    (((i + size - 1) mod size + size - k) mod size
     = (i + size - S k) mod size)%nat).
  { intros i0 k0 Hk0.
    rewrite <- Nat.add_sub_assoc by lia.
    rewrite Nat.Div0.add_mod_idemp_l.
    replace (i0 + size - 1 + (size - k0))%nat
      with (i0 + size - S k0 + 1 * size)%nat by lia.
    now rewrite Nat.Div0.mod_add. }
  assert (Hzero : forall i, (i < size)%nat -> ((i + size - 0) mod size = i)%nat).
  { intros i0 Hi0. rewrite Nat.sub_0_r.
    replace (i0 + size)%nat with (i0 + 1 * size)%nat by lia.
    now rewrite Nat.Div0.mod_add, Nat.mod_small. }
  revert i k. induction fuel as [|fuel IH]; intros i k Hi Hk Hsize Hskip Hfree;
    [lia|].
  cbn [previous_loop].
  destruct k as [|k].
  - rewrite Hzero in Hfree |- * by exact Hi. now rewrite Hfree.
  - pose proof (Hskip 0%nat ltac:(lia)) as Hhere.
    rewrite Hzero in Hhere by exact Hi. rewrite Hhere.
    rewrite <- (Hshift i k) in Hfree |- * by lia.
    apply IH; auto.
    + apply Nat.mod_upper_bound. lia.
    + lia.
    + lia.
    + intros k' Hk'. specialize (Hskip (S k') ltac:(lia)).
      now rewrite (Hshift i k') by lia.
Qed.






(** X10: the searches return just when some vertex is not deleted; when
    every flag is set, the loops of [nextNotDeleted] and
    [previousNotDeleted] do not end. *)
Theorem neighbour_search_returns (flags : list bool) (index : nat) :
  (is_Some (nextNotDeleted index flags)
   <-> exists free, flags !! free = Some false)
  /\ (is_Some (previousNotDeleted index flags)
      <-> exists free, flags !! free = Some false).
Proof.
  split; split.
  - intros [j Hj]. unfold nextNotDeleted in Hj.
    assert (Hsize : (0 < length flags)%nat).
    { destruct flags; [discriminate|cbn; lia]. }
    apply next_loop_run in Hj as (k & _ & _ & Hfree & _);
      [eauto|apply Nat.mod_upper_bound; lia].
  - intros [free Hfree].
    destruct (nextNotDeleted_defined flags index free Hfree) as (j & -> & _).
    eauto.
  - intros [j Hj]. unfold previousNotDeleted in Hj.
    assert (Hsize : (0 < length flags)%nat).
    { destruct flags; [discriminate|cbn; lia]. }
    apply previous_loop_run in Hj as (k & _ & _ & Hfree & _);
      [eauto|apply Nat.mod_upper_bound; lia|lia].
  - intros [free Hfree].
    destruct (previousNotDeleted_defined flags index free Hfree) as (j & -> & _).
    eauto.
Qed.

(** X11: the two searches undo each other: for a vertex [index] that is
    not deleted, the vertex before the one that [nextNotDeleted] returns is
    [index], and so is the vertex after the one that [previousNotDeleted]
    returns. *)
Theorem neighbours_mutual (flags : list bool) (index j : nat) :
  flags !! index = Some false ->
  (nextNotDeleted index flags = Some j -> previousNotDeleted j flags = Some index)
  /\ (previousNotDeleted index flags = Some j -> nextNotDeleted j flags = Some index).
Proof.
  intros Hindex. assert (Hlt := lookup_lt_Some _ _ _ Hindex).
  set (size := length flags) in *.
  assert (Hshift : forall i k, (k < size)%nat ->
    (((i + size - 1) mod size + size - k) mod size
     = (i + size - S k) mod size)%nat).
  { intros i0 k Hk.
    rewrite <- Nat.add_sub_assoc by lia.
    rewrite Nat.Div0.add_mod_idemp_l.
    replace (i0 + size - 1 + (size - k))%nat
      with (i0 + size - S k + 1 * size)%nat by lia.
    now rewrite Nat.Div0.mod_add. }
  split; intros Hj.
  - unfold nextNotDeleted in Hj. fold size in Hj.
    apply next_loop_run in Hj as (k & Hk & -> & _ & Hbefore);
      [|apply Nat.mod_upper_bound; lia].
    fold size in Hbefore |- *.
    rewrite Nat.Div0.add_mod_idemp_l.
    assert (Hback : forall k', (k' <= k)%nat ->
      (((index + 1 + k) mod size + size - S k') mod size
       = (index + (k - k')) mod size)%nat).
    { intros k' Hk'.
      rewrite <- Nat.add_sub_assoc by lia.
      rewrite Nat.Div0.add_mod_idemp_l.
      replace (index + 1 + k + (size - S k'))%nat
        with (index + (k - k') + 1 * size)%nat by lia.
      now rewrite Nat.Div0.mod_add. }
    unfold previousNotDeleted. fold size.
    set (j := ((index + 1 + k) mod size)%nat) in *.
    assert (Hend : (((j + size - 1) mod size + size - k) mod size)%nat = index).
    { rewrite Hshift by lia. unfold j. rewrite Hback by lia.
      rewrite Nat.sub_diag, Nat.add_0_r. now apply Nat.mod_small. }
    transitivity (Some (((j + size - 1) mod size + size - k) mod size)%nat);
      [|now rewrite Hend].
    apply previous_loop_skip; fold size.
    + apply Nat.mod_upper_bound. lia.
    + lia.
    + lia.
    + intros k' Hk'. rewrite Hshift by lia. unfold j. rewrite Hback by lia.
      specialize (Hbefore (k - k' - 1)%nat ltac:(lia)).
      rewrite Nat.Div0.add_mod_idemp_l in Hbefore.
      now replace (index + 1 + (k - k' - 1))%nat
        with (index + (k - k'))%nat in Hbefore by lia.
    + now rewrite Hend.
  - unfold previousNotDeleted in Hj. fold size in Hj.
    apply previous_loop_run in Hj as (k & Hk & -> & _ & Hbefore);
      [|apply Nat.mod_upper_bound; lia|lia].
    fold size in Hbefore |- *.
    rewrite Hshift by lia.
    assert (Hforth : forall k', (k' <= k)%nat ->
      ((((index + size - S k) mod size + 1) mod size + k') mod size
       = (index + size - (k - k')) mod size)%nat).
    { intros k' Hk'.
      rewrite Nat.Div0.add_mod_idemp_l, <- Nat.add_assoc.
      rewrite Nat.Div0.add_mod_idemp_l.
      f_equal. lia. }
    unfold nextNotDeleted. fold size.
    set (j := ((index + size - S k) mod size)%nat) in *.
    assert (Hend : (((j + 1) mod size + k) mod size)%nat = index).
    { unfold j. rewrite Hforth by lia.
      rewrite Nat.sub_diag, Nat.sub_0_r.
      replace (index + size)%nat with (index + 1 * size)%nat by lia.
      rewrite Nat.Div0.mod_add. now apply Nat.mod_small. }
    transitivity (Some (((j + 1) mod size + k) mod size)%nat);
      [|now rewrite Hend].
    apply next_loop_skip; fold size.
    + apply Nat.mod_upper_bound. lia.
    + lia.
    + intros k' Hk'. unfold j. rewrite Hforth by lia.
      specialize (Hbefore (k - k' - 1)%nat ltac:(lia)).
      rewrite Hshift in Hbefore by lia.
      now replace (S (k - k' - 1)) with (k - k')%nat in Hbefore by lia.
    + now rewrite Hend.
Qed.

(** [neighbours_mutual] across the end of the vector. *)
Lemma neighbours_mutual_witness :
  [false; true; false; true; true] !! 2%nat = Some false
  /\ nextNotDeleted 2 [false; true; false; true; true] = Some 0%nat
  /\ previousNotDeleted 0 [false; true; false; true; true] = Some 2%nat.
Proof.
  split; [reflexivity|]. split; [reflexivity|].
  exact (proj1 (neighbours_mutual [false; true; false; true; true] 2 0 eq_refl)
           eq_refl).
Defined.

End NeighboursMore.

(** ** The queue and the removal loop *)

Section SimplifyMore.
Import Simplify.
Context `{G : Geometry}.
Variable self : Simplify.

(** X12: the comparator of the priority queue is a strict total order of
    the entries: no entry comes after itself, coming after is transitive,
    and of two different entries exactly one comes after the other; so the
    queue has one order in which it can deliver its entries. *)
Theorem comparator_order (a b c : nat * Z) :
  comparator a a = false
  /\ (comparator a b = true -> comparator b c = true -> comparator a c = true)
  /\ (a <> b -> comparator a b = negb (comparator b a)).
Proof.
  destruct a as [ia ka], b as [ib kb], c as [ic kc].
  unfold comparator. cbn [fst snd].
  split_and!.
  - destruct (Z.ltb_spec ka ka), (Z.eqb_spec ka ka), (Nat.ltb_spec ia ia);
      cbn; auto; lia.
  - destruct (Z.ltb_spec kb ka), (Z.eqb_spec ka kb), (Nat.ltb_spec ib ia),
      (Z.ltb_spec kc kb), (Z.eqb_spec kb kc), (Nat.ltb_spec ic ib),
      (Z.ltb_spec kc ka), (Z.eqb_spec ka kc), (Nat.ltb_spec ic ia);
      cbn; auto; lia.
  - intros Hne.
    assert (ia <> ib \/ ka <> kb) as Hdiff.
    { destruct (decide (ia = ib)), (decide (ka = kb)); subst; auto;
        now contradict Hne. }
    destruct (Z.ltb_spec kb ka), (Z.eqb_spec ka kb), (Nat.ltb_spec ib ia),
      (Z.ltb_spec ka kb), (Z.eqb_spec kb ka), (Nat.ltb_spec ia ib);
      cbn; auto; lia.
Qed.

(** What is left after the final sweep is a part of the polygon, in its
    order. *)
Lemma sweep_sublist (polygon filtered : Polygon) (flags : list bool) :
  sweep polygon flags = Some filtered -> filtered `sublist_of` polygon.
Proof.
  revert flags filtered.
  induction polygon as [|p polygon IH]; intros flags filtered; cbn [sweep].
  - intros [= <-]. constructor.
  - destruct flags as [|b flags]; [discriminate|].
    destruct (sweep polygon flags) as [rest|] eqn:Hrest; [|discriminate].
    cbn. intros [= <-]. specialize (IH _ _ Hrest).
    destruct b; [now apply sublist_cons|now apply sublist_skip].
Qed.

(** The state in which the removal loop of a polygon that passes the size
    tests ends, and what the final sweep makes of it. *)
Lemma simplify_through_loop (polygon filtered : Polygon) (is_closed : bool) :
  (length polygon > (if is_closed then 2 else 3))%nat ->
  simplify self polygon is_closed = Some filtered ->
  exists st0 st,
    initial_state self polygon is_closed = Some st0
    /\ result st0 = polygon
    /\ to_delete st0 = replicate (length polygon) false
    /\ loop_invariant (length polygon) st0
    /\ length (by_importance st0) = length polygon
    /\ run self is_closed st0 st
    /\ loop_invariant (length polygon) st
    /\ sweep (result st) (to_delete st) = Some filtered.
Proof.
  intros Hsize. unfold simplify, removal_and_sweep.
  rewrite decide_False by (destruct is_closed; lia).
  rewrite decide_False by (destruct is_closed; lia).
  destruct (removal self polygon is_closed) as [st|] eqn:Hst; [|discriminate].
  cbn. intros Hsweep. unfold removal in Hst.
  destruct (initial_state_defined self polygon is_closed)
    as (st0 & Hinit & Hinv & Hlen & Hres & Hflags).
  rewrite Hinit in Hst. cbn in Hst. apply loop_run in Hst.
  exists st0, st. split_and!; auto.
  eapply run_invariant; eauto.
Qed.

(** X13: [simplify] adds no vertex: what it returns is not longer than
    the polygon. *)
Theorem simplify_shrinks (polygon filtered : Polygon) (is_closed : bool) :
  simplify self polygon is_closed = Some filtered ->
  (length filtered <= length polygon)%nat.
Proof.
  intros Hrun.
  destruct (le_lt_dec (length polygon) (if is_closed then 2 else 3))
    as [Hsize|Hsize].
  2: {
    apply simplify_through_loop in Hrun
      as (st0 & st & _ & _ & _ & _ & _ & _ & (Hres & _) & Hsweep); [|exact Hsize].
    apply sweep_sublist, sublist_length in Hsweep. lia. }
  unfold simplify in Hrun. repeat case_decide;
    try (injection Hrun as <-; cbn; lia).
  destruct is_closed; lia.
Qed.


(** The final sweep keeps a polygon none of whose vertices is deleted. *)
Lemma sweep_nothing (polygon : Polygon) :
  sweep polygon (replicate (length polygon) false) = Some polygon.
Proof.
  induction polygon as [|p polygon IH]; [reflexivity|].
  cbn [length replicate sweep]. now rewrite IH.
Qed.

(** The removal loop leaves a queue of three entries or fewer alone. *)
Lemma loop_short_queue (fuel : nat) (is_closed : bool) (st : State) :
  (length (by_importance st) <= 3)%nat ->
  simplify_loop self fuel is_closed st = Some st.
Proof.
  intros Hq. destruct fuel; cbn [simplify_loop];
    now rewrite decide_False by lia.
Qed.

(** X14: a polygon or polyline of three vertices is returned as it is,
    whatever the settings and the positions: the removal loop takes
    nothing from a queue of three. *)
Theorem three_vertices_unchanged (polygon : Polygon) (is_closed : bool) :
  length polygon = 3%nat ->
  simplify self polygon is_closed = Some polygon.
Proof.
  intros Hsize. unfold simplify.
  destruct is_closed.
  - rewrite !decide_False by lia.
    unfold removal_and_sweep, removal.
    destruct (initial_state_defined self polygon true)
      as (st0 & -> & _ & Hlen & Hres & Hflags).
    cbn [mbind option_bind].
    rewrite loop_short_queue by lia. cbn [mbind option_bind].
    rewrite Hres, Hflags. apply sweep_nothing.
  - rewrite decide_False by lia. now rewrite decide_True.
Qed.


(** A round of the removal loop moves nothing while every two vertices are
    within [max_resolution] of each other. *)
Lemma step_keeps_positions (polygon : Polygon) (is_closed : bool)
    (st st' : State) :
  (forall p q, p ∈ polygon -> q ∈ polygon ->
     vSize2 (psub p q) <= max_resolution self * max_resolution self) ->
  result st = polygon ->
  simplify_step self is_closed st = Some st' ->
  result st' = polygon.
Proof.
  intros Hnear Hres Hstep.
  apply step_cases in Hstep
    as (v & k & popped & d & _ & _ & [(_ & ->)|[(_ & _ & ->)|(_ & _ & Hrm)]]);
    auto.
  destruct Hrm as (polygon' & flags' & Hrm & ->). cbn [result].
  apply remove_cases in Hrm
    as [(_ & _ & -> & _)
       |(_ & b & a & pv & pb & pa & _ & _ & Hpv & Hpb & Hpa & Hrm)];
    [auto|].
  cbv zeta in Hrm.
  destruct Hrm as [(_ & _ & -> & _)|[(_ & -> & _)|(Hlong & _)]]; auto.
  exfalso. apply Hlong.
  rewrite Hres in Hpv, Hpb, Hpa.
  apply list_elem_of_lookup_2 in Hpv, Hpb, Hpa. auto.
Qed.

(** X15: where every two vertices of the polygon are within
    [max_resolution] of each other, [simplify] moves no vertex: what it
    returns is a part of the polygon, in its order. *)
Theorem simplify_sublist (polygon filtered : Polygon) (is_closed : bool) :
  (forall p q, p ∈ polygon -> q ∈ polygon ->
     vSize2 (psub p q) <= max_resolution self * max_resolution self) ->
  simplify self polygon is_closed = Some filtered ->
  filtered `sublist_of` polygon.
Proof.
  intros Hnear Hrun.
  destruct (le_lt_dec (length polygon) (if is_closed then 2 else 3))
    as [Hsize|Hsize].
  - unfold simplify in Hrun. repeat case_decide;
      try (injection Hrun as <-; auto using sublist_nil_l).
    destruct is_closed; lia.
  - apply simplify_through_loop in Hrun
      as (st0 & st & _ & Hres0 & _ & _ & _ & Hpath & _ & Hsweep);
      [|exact Hsize].
    assert (Hres : result st = polygon).
    { clear Hsweep. induction Hpath as [|st1 st2 st3 _ Hstep _ IH]; [auto|].
      apply IH. eapply step_keeps_positions; eauto. }
    rewrite Hres in Hsweep. eapply sweep_sublist; eauto.
Qed.

(** The first loop of [simplify] queues every vertex with its
    importance. *)
Lemma add_initial_fresh (polygon : Polygon) (flags : list bool)
    (is_closed : bool) (indices : list nat) (queue queue' : list (nat * Z)) :
  add_initial self polygon flags is_closed indices queue = Some queue' ->
  Forall (fun e => importance self polygon flags e.1 is_closed = Some e.2) queue ->
  Forall (fun e => importance self polygon flags e.1 is_closed = Some e.2) queue'.
Proof.
  revert queue. induction indices as [|i indices IH]; intros queue; cbn [add_initial].
  - now intros [= <-].
  - destruct (importance self polygon flags i is_closed) as [d|] eqn:Himp;
      [|discriminate].
    cbn. intros Hadd Hfresh. apply (IH _ Hadd).
    rewrite emplace_perm. now apply Forall_cons.
Qed.

(** While no vertex has an importance within [max_deviation] squared,
    the removal loop only empties its queue. *)
Lemma run_nothing_removed (polygon : Polygon) (is_closed : bool)
    (st st' : State) :
  (forall i d,
     importance self polygon (replicate (length polygon) false) i is_closed
     = Some d ->
     max_deviation self * max_deviation self < d) ->
  run self is_closed st st' ->
  result st = polygon ->
  to_delete st = replicate (length polygon) false ->
  Forall (fun e => importance self polygon (replicate (length polygon) false)
                     e.1 is_closed = Some e.2) (by_importance st) ->
  result st' = polygon /\ to_delete st' = replicate (length polygon) false.
Proof.
  intros Himportant Hpath.
  induction Hpath as [|st1 st2 st3 _ Hstep _ IH]; [auto|].
  intros Hres Hfl Hfresh.
  apply step_cases in Hstep
    as (v & k & popped & d & Hq & Himp & Hcases).
  rewrite Hq in Hfresh. apply Forall_cons in Hfresh as [Hv Hfresh].
  cbn [fst snd] in Hv. rewrite Hres, Hfl in Himp.
  assert (d = k) as -> by congruence.
  specialize (Himportant _ _ Himp).
  destruct Hcases as [(Hne & _)|[(_ & _ & ->)|(_ & Hd & _)]];
    [congruence| |lia].
  apply IH; auto.
Qed.

(** X16: a polygon none of whose vertices has an importance within
    [max_deviation] squared is a fixed point: past the first size test,
    [simplify] returns it as it is. *)
Theorem simplify_fixed_point (polygon : Polygon) (is_closed : bool) :
  (forall i d,
     importance self polygon (replicate (length polygon) false) i is_closed
     = Some d ->
     max_deviation self * max_deviation self < d) ->
  (length polygon >= (if is_closed then 2 else 3))%nat ->
  simplify self polygon is_closed = Some polygon.
Proof.
  intros Himportant Hsize. unfold simplify.
  rewrite decide_False by (destruct is_closed; lia).
  case_decide; [reflexivity|].
  unfold removal_and_sweep.
  destruct (simplify_loop_terminates self polygon is_closed) as [st Hst].
  rewrite Hst. cbn [mbind option_bind].
  unfold removal in Hst.
  destruct (initial_state self polygon is_closed) as [st0|] eqn:Hinit;
    [|discriminate].
  cbn [mbind option_bind] in Hst. apply loop_run in Hst.
  unfold initial_state in Hinit.
  destruct (add_initial self polygon (replicate (length polygon) false)
              is_closed (seq 0 (length polygon)) []) as [queue|] eqn:Hadd;
    [|discriminate].
  injection Hinit as <-.
  destruct (run_nothing_removed polygon is_closed _ _ Himportant Hst)
    as [-> ->]; cbn; auto.
  - eapply add_initial_fresh; eauto.
  - apply sweep_nothing.
Qed.

(** An importance other than the sentinel belongs to a vertex that is
    within [min_resolution] of the line through its neighbours or has an
    edge that is not longer than [max_resolution]. *)
Lemma importance_resolution (polygon : Polygon) (flags : list bool)
    (index : nat) (is_closed : bool) (d : Z) :
  importance self polygon flags index is_closed = Some d ->
  d <> coord_max ->
  exists before after vertex_position before_position after_position,
    previousNotDeleted index flags = Some before
    /\ nextNotDeleted index flags = Some after
    /\ polygon !! index = Some vertex_position
    /\ polygon !! before = Some before_position
    /\ polygon !! after = Some after_position
    /\ (getDist2FromLine vertex_position before_position after_position
        <= min_resolution * min_resolution
        \/ vSize2 (psub before_position vertex_position)
           <= max_resolution self * max_resolution self
        \/ vSize2 (psub after_position vertex_position)
           <= max_resolution self * max_resolution self).
Proof.
  unfold importance. intros Himp Hd.
  destruct (negb is_closed && ((index =? 0)%nat || (index =? length polygon - 1)%nat));
    [congruence|].
  destruct (polygon !! index) as [pv|]; [|discriminate].
  cbn [mbind option_bind] in Himp.
  destruct (previousNotDeleted index flags) as [b|]; [|discriminate].
  cbn [mbind option_bind] in Himp.
  destruct (polygon !! b) as [pb|] eqn:Hpb; [|discriminate].
  cbn [mbind option_bind] in Himp.
  destruct (nextNotDeleted index flags) as [a|]; [|discriminate].
  cbn [mbind option_bind] in Himp.
  destruct (polygon !! a) as [pa|] eqn:Hpa; [|discriminate].
  cbn [mbind option_bind] in Himp.
  exists b, a, pv, pb, pa. split_and!; auto.
  destruct (Z.leb_spec (getDist2FromLine pv pb pa)
              (min_resolution * min_resolution)); [auto|].
  destruct (Z.ltb_spec (max_resolution self * max_resolution self)
              (vSize2 (psub pb pv))); [|auto].
  destruct (Z.ltb_spec (max_resolution self * max_resolution self)
              (vSize2 (psub pa pv))); [|auto].
  cbn in Himp. congruence.
Qed.

(** The round of a run of [simplify] that set a given flag. *)
Lemma removal_round (polygon : Polygon) (is_closed : bool) (st : State)
    (v : nat) :
  max_deviation self * max_deviation self < coord_max ->
  removal self polygon is_closed = Some st ->
  to_delete st !! v = Some true ->
  exists st0 st1 st2 popped d,
    initial_state self polygon is_closed = Some st0
    /\ run self is_closed st0 st1
    /\ simplify_step self is_closed st1 = Some st2
    /\ run self is_closed st2 st
    /\ to_delete st1 !! v = Some false
    /\ to_delete st2 !! v = Some true
    /\ by_importance st1 = (v, d) :: popped
    /\ importance self (result st1) (to_delete st1) v is_closed = Some d
    /\ d <= max_deviation self * max_deviation self.
Proof.
  intros Hmax Hrun Htrue.
  destruct (initial_state_defined self polygon is_closed)
    as (st0 & Hinit & Hinv & _ & _ & Hflags).
  unfold removal in Hrun. rewrite Hinit in Hrun. cbn [mbind option_bind] in Hrun.
  assert (Hpath := loop_run _ _ _ _ _ Hrun).
  assert (Hfalse : to_delete st0 !! v = Some false).
  { destruct (run_invariant _ _ _ _ _ Hpath Hinv) as (_ & Hlen & _).
    apply lookup_lt_Some in Htrue. rewrite Hflags.
    apply lookup_replicate_2. lia. }
  destruct (loop_removal_within _ _ _ _ _ _ Hmax Hrun Hfalse Htrue)
    as (st1 & st2 & d0 & Hrun1 & Hstep & Hrun2 & Hf1 & Hf2 & _).
  destruct (step_cases _ _ _ _ Hstep)
    as (v0 & k & popped & d & Hq & Himp & Hcases).
  destruct Hcases as [(_ & ->)|[(_ & _ & ->)|(-> & Hd & Hrm)]];
    cbn [to_delete] in Hf2; try congruence.
  destruct Hrm as (polygon' & flags' & Hrm & ->). cbn [to_delete] in Hf2.
  assert (v0 = v) as ->.
  { apply remove_flags in Hrm as ([->| ->] & _); [congruence|].
    destruct (decide (v0 = v)) as [|Hne]; [auto|].
    rewrite list_lookup_insert_ne in Hf2 by exact Hne. congruence. }
  exists st0, st1, {| by_importance := popped; result := polygon';
                      to_delete := flags' |}, popped, k.
  split_and!; auto.
Qed.

(** X17: every vertex that a run of [simplify] removes was, in the round
    that set its flag, within [min_resolution] of the line through its
    neighbours or at the end of an edge that was not longer than
    [max_resolution]: a vertex between two long edges that is off the line
    is never removed. *)
Theorem removed_had_short_edge (polygon : Polygon) (is_closed : bool)
    (st : State) (v : nat) :
  max_deviation self * max_deviation self < coord_max ->
  removal self polygon is_closed = Some st ->
  to_delete st !! v = Some true ->
  exists st0 st1 st2 before after vertex_position before_position after_position,
    initial_state self polygon is_closed = Some st0
    /\ run self is_closed st0 st1
    /\ simplify_step self is_closed st1 = Some st2
    /\ run self is_closed st2 st
    /\ to_delete st1 !! v = Some false
    /\ to_delete st2 !! v = Some true
    /\ previousNotDeleted v (to_delete st1) = Some before
    /\ nextNotDeleted v (to_delete st1) = Some after
    /\ result st1 !! v = Some vertex_position
    /\ result st1 !! before = Some before_position
    /\ result st1 !! after = Some after_position
    /\ (getDist2FromLine vertex_position before_position after_position
        <= min_resolution * min_resolution
        \/ vSize2 (psub before_position vertex_position)
           <= max_resolution self * max_resolution self
        \/ vSize2 (psub after_position vertex_position)
           <= max_resolution self * max_resolution self).
Proof.
  intros Hmax Hrun Htrue.
  destruct (removal_round _ _ _ _ Hmax Hrun Htrue)
    as (st0 & st1 & st2 & popped & d & Hinit & Hrun1 & Hstep & Hrun2
        & Hf1 & Hf2 & _ & Himp & Hd).
  apply importance_resolution in Himp
    as (b & a & pv & pb & pa & Hrest); [|lia].
  exists st0, st1, st2, b, a, pv, pb, pa. split_and!; tauto.
Qed.

(** The searches return vertices that are not deleted. *)
Lemma next_loop_free (flags : list bool) (fuel size i j : nat) :
  next_loop fuel size flags i = Some j -> flags !! j = Some false.
Proof.
  revert i. induction fuel as [|fuel IH]; intros i; cbn [next_loop];
    [discriminate|].
  destruct (flags !! i) as [[|]|] eqn:Hflag; try discriminate; eauto.
  now intros [= <-].
Qed.

Lemma previous_loop_free (flags : list bool) (fuel size i j : nat) :
  previous_loop fuel size flags i = Some j -> flags !! j = Some false.
Proof.
  revert i. induction fuel as [|fuel IH]; intros i; cbn [previous_loop];
    [discriminate|].
  destruct (flags !! i) as [[|]|] eqn:Hflag; try discriminate; eauto.
  now intros [= <-].
Qed.

(** A round of the removal loop clears no flag and moves no vertex that is
    deleted. *)
Lemma step_deleted_frozen (is_closed : bool) (st st' : State) (j : nat) :
  simplify_step self is_closed st = Some st' ->
  to_delete st !! j = Some true ->
  to_delete st' !! j = Some true /\ result st' !! j = result st !! j.
Proof.
  intros Hstep Hj.
  apply step_cases in Hstep
    as (v & k & popped & d & _ & _ & [(_ & ->)|[(_ & _ & ->)|(_ & _ & Hrm)]]);
    auto.
  destruct Hrm as (polygon' & flags' & Hrm & ->). cbn [result to_delete].
  split.
  - apply remove_flags in Hrm as ([->| ->] & _); auto using flag_kept.
  - apply remove_cases in Hrm
      as [(_ & _ & -> & _)
         |(_ & b & a & pv & pb & pa & Hb & Ha & _ & _ & _ & Hrm)];
      [auto|].
    cbv zeta in Hrm.
    destruct Hrm as [(_ & _ & -> & _)|[(_ & -> & _)|(_ & Hrm)]]; auto.
    destruct Hrm as (? & ? & ? & _ & _ & _ & _ & _ & _ & ->).
    apply previous_loop_free in Hb. apply next_loop_free in Ha.
    apply list_lookup_insert_ne. case_match; congruence.
Qed.

(** X18: the removal loop never clears a flag and never moves a vertex
    that is deleted: what is deleted stays deleted, where it was. *)
Theorem loop_deleted_frozen (fuel : nat) (is_closed : bool) (st st' : State)
    (j : nat) :
  simplify_loop self fuel is_closed st = Some st' ->
  to_delete st !! j = Some true ->
  to_delete st' !! j = Some true /\ result st' !! j = result st !! j.
Proof.
  intros Hloop. apply loop_run in Hloop.
  induction Hloop as [|st1 st2 st3 _ Hstep _ IH]; [auto|].
  intros Hj. destruct (step_deleted_frozen _ _ _ _ Hstep Hj) as [Hj2 Hpos].
  destruct (IH Hj2) as [Hj3 Hpos3]. split; [auto|congruence].
Qed.


(** An entry that does not come after another does not come after what
    that one does not come after. *)
Lemma comparator_chain (a b c : nat * Z) :
  comparator a b = false -> comparator b c = false -> comparator a c = false.
Proof.
  destruct a as [ia ka], b as [ib kb], c as [ic kc].
  unfold comparator. cbn [fst snd].
  destruct (Z.ltb_spec kb ka), (Z.eqb_spec ka kb), (Nat.ltb_spec ib ia),
    (Z.ltb_spec kc kb), (Z.eqb_spec kb kc), (Nat.ltb_spec ic ib),
    (Z.ltb_spec kc ka), (Z.eqb_spec ka kc), (Nat.ltb_spec ic ia);
    cbn; auto; lia.
Qed.

Lemma comparator_after (a b : nat * Z) :
  comparator a b = true -> comparator b a = false.
Proof.
  destruct a as [ia ka], b as [ib kb].
  unfold comparator. cbn [fst snd].
  destruct (Z.ltb_spec kb ka), (Z.eqb_spec ka kb), (Nat.ltb_spec ib ia),
    (Z.ltb_spec ka kb), (Z.eqb_spec kb ka), (Nat.ltb_spec ia ib);
    cbn; auto; lia.
Qed.

(** [emplace] keeps the queue in order. *)
Lemma emplace_ordered (e : nat * Z) (queue : list (nat * Z)) :
  ordered queue -> ordered (emplace e queue).
Proof.
  induction queue as [|x queue IH]; cbn [emplace ordered].
  - auto.
  - intros [Hx Hrest]. destruct (comparator e x) eqn:Hex; cbn [ordered].
    + split; [|auto]. rewrite emplace_perm.
      apply Forall_cons. auto using comparator_after.
    + split_and!; auto. apply Forall_cons. split; [exact Hex|].
      eapply Forall_impl; [exact Hx|]. cbn. eauto using comparator_chain.
Qed.

Lemma add_initial_ordered (polygon : Polygon) (flags : list bool)
    (is_closed : bool) (indices : list nat) (queue queue' : list (nat * Z)) :
  add_initial self polygon flags is_closed indices queue = Some queue' ->
  ordered queue -> ordered queue'.
Proof.
  revert queue. induction indices as [|i indices IH]; intros queue; cbn [add_initial].
  - now intros [= <-].
  - destruct (importance self polygon flags i is_closed) as [d|]; [|discriminate].
    cbn. intros Hadd Hq. apply (IH _ Hadd). now apply emplace_ordered.
Qed.

Lemma run_ordered (is_closed : bool) (st st' : State) :
  run self is_closed st st' ->
  ordered (by_importance st) -> ordered (by_importance st').
Proof.
  induction 1 as [|st1 st2 st3 _ Hstep _ IH]; [auto|].
  intros Hq. apply IH.
  apply step_cases in Hstep
    as (v & k & popped & d & Hhead & _ & Hcases).
  rewrite Hhead in Hq. destruct Hq as [_ Hq].
  destruct Hcases as [(_ & ->)|[(_ & _ & ->)|(_ & _ & Hrm)]];
    cbn [by_importance]; auto using emplace_ordered.
  destruct Hrm as (? & ? & _ & ->). auto.
Qed.

(** X22: in every round of a run of [simplify] the entry that is popped
    is the least of the queue: every other entry has a larger importance,
    or the same importance and a larger index. *)
Theorem queue_head_least (polygon : Polygon) (is_closed : bool)
    (st0 st : State) (v : nat) (k : Z) (others : list (nat * Z)) :
  initial_state self polygon is_closed = Some st0 ->
  run self is_closed st0 st ->
  by_importance st = (v, k) :: others ->
  Forall (fun e => k < e.2 \/ (k = e.2 /\ (v < e.1)%nat)) others.
Proof.
  intros Hinit Hpath Hq.
  destruct (initial_state_defined self polygon is_closed)
    as (st0' & Hinit' & Hinv & _).
  rewrite Hinit in Hinit'. injection Hinit' as <-.
  assert (Hordered : ordered (by_importance st)).
  { apply (run_ordered _ _ _ Hpath).
    unfold initial_state in Hinit.
    destruct (add_initial self polygon (replicate (length polygon) false)
                is_closed (seq 0 (length polygon)) []) as [queue|] eqn:Hadd;
      [|discriminate].
    injection Hinit as <-. cbn [by_importance].
    eapply add_initial_ordered; [exact Hadd|exact I]. }
  destruct (run_invariant _ _ _ _ _ Hpath Hinv) as (_ & _ & _ & Hnodup & _).
  rewrite Hq in Hordered, Hnodup. destruct Hordered as [Hhead _].
  rewrite fmap_cons in Hnodup. apply NoDup_cons in Hnodup as [Hfresh _].
  apply Forall_forall. intros [i d] He.
  rewrite Forall_forall in Hhead. specialize (Hhead _ He).
  assert (i <> v).
  { intros ->. apply Hfresh. now apply (list_elem_of_fmap_2 fst) in He. }
  revert Hhead. unfold comparator. cbn [fst snd].
  destruct (Z.ltb_spec d k), (Z.eqb_spec k d), (Nat.ltb_spec i v);
    cbn; intros; try discriminate; lia.
Qed.

End SimplifyMore.

(** ** The properties above, at concrete polygons *)

Section MoreScenarios.
Import Simplify.

(** Every two vertices of [arch] are within the [max_resolution] of
    [coarse] of each other. *)
Lemma arch_is_small (p q : Point) :
  p ∈ arch -> q ∈ arch ->
  vSize2 (psub p q) <= max_resolution coarse * max_resolution coarse.
Proof.
  assert (Hall : Forall (fun p => Forall (fun q =>
            vSize2 (psub p q) <= max_resolution coarse * max_resolution coarse)
            arch) arch).
  { unfold arch. repeat constructor; vm_compute; discriminate. }
  intros Hp Hq. rewrite Forall_forall in Hall. specialize (Hall p Hp).
  rewrite Forall_forall in Hall. now apply Hall.
Qed.

(** The first round of the removal loop of [arch] under [coarse]. *)
Lemma arch_first_round :
  initial_state (G := geometry64) coarse arch false = Some arch_initial
  /\ run (G := geometry64) coarse false arch_initial arch_started.
Proof.
  split; [vm_compute; reflexivity|].
  eapply run_round; [cbn; lia|vm_compute; reflexivity|apply run_here].
Qed.

(** [simplify_shrinks] for [arch]. *)
Lemma simplify_shrinks_witness :
  simplify (G := geometry64) coarse arch false = Some arch_flat
  /\ (length arch_flat <= length arch)%nat.
Proof.
  split; [vm_compute; reflexivity|].
  apply (simplify_shrinks (G := geometry64) coarse arch arch_flat false).
  vm_compute. reflexivity.
Defined.

(** [three_vertices_unchanged] for [triple], taken as a closed polygon. *)
Lemma three_vertices_unchanged_witness :
  length triple = 3%nat
  /\ simplify (G := geometry64) coarse triple true = Some triple.
Proof.
  split; [reflexivity|].
  exact (three_vertices_unchanged (G := geometry64) coarse triple true eq_refl).
Defined.

(** [simplify_sublist] for [arch], which is smaller than the
    [max_resolution] of [coarse]. *)
Lemma simplify_sublist_witness :
  simplify (G := geometry64) coarse arch false = Some arch_flat
  /\ arch_flat `sublist_of` arch.
Proof.
  split; [vm_compute; reflexivity|].
  apply (simplify_sublist (G := geometry64) coarse arch arch_flat false).
  - exact arch_is_small.
  - vm_compute. reflexivity.
Defined.

(** [simplify_fixed_point] for [square] under [fine]: the scenario of the
    design description. *)
Lemma simplify_fixed_point_witness :
  simplify (G := geometry64) fine square true = Some square.
Proof.
  apply (simplify_fixed_point (G := geometry64) fine square true).
  - intros [|[|[|[|i]]]] d; vm_compute; intros [= <-]; reflexivity.
  - cbn. lia.
Defined.

(** [removed_had_short_edge] for the top of [arch]. *)
Lemma removed_had_short_edge_witness :
  exists st0 st1 st2 before after vertex_position before_position after_position,
    initial_state (G := geometry64) coarse arch false = Some st0
    /\ run (G := geometry64) coarse false st0 st1
    /\ simplify_step (G := geometry64) coarse false st1 = Some st2
    /\ run (G := geometry64) coarse false st2 arch_end
    /\ to_delete st1 !! 2%nat = Some false
    /\ to_delete st2 !! 2%nat = Some true
    /\ previousNotDeleted 2 (to_delete st1) = Some before
    /\ nextNotDeleted 2 (to_delete st1) = Some after
    /\ result st1 !! 2%nat = Some vertex_position
    /\ result st1 !! before = Some before_position
    /\ result st1 !! after = Some after_position
    /\ (dist2_from_line vertex_position before_position after_position <= 5 * 5
        \/ vSize2 (psub before_position vertex_position)
           <= max_resolution coarse * max_resolution coarse
        \/ vSize2 (psub after_position vertex_position)
           <= max_resolution coarse * max_resolution coarse).
Proof.
  apply (removed_had_short_edge (G := geometry64) coarse arch false arch_end 2).
  - vm_compute. reflexivity.
  - vm_compute. reflexivity.
  - reflexivity.
Defined.

(** [loop_deleted_frozen] for the top of [arch], from the second round
    on. *)
Lemma loop_deleted_frozen_witness :
  simplify_loop (G := geometry64) coarse 48 false arch_started = Some arch_end
  /\ to_delete arch_started !! 2%nat = Some true
  /\ to_delete arch_end !! 2%nat = Some true
  /\ result arch_end !! 2%nat = result arch_started !! 2%nat.
Proof.
  assert (Hloop : simplify_loop (G := geometry64) coarse 48 false arch_started
                  = Some arch_end) by (vm_compute; reflexivity).
  split; [exact Hloop|]. split; [reflexivity|].
  exact (loop_deleted_frozen (G := geometry64) coarse 48 false arch_started
           arch_end 2 Hloop eq_refl).
Defined.

(** [simplify_keeps_three] for [pentagon] under [medium]. *)
Lemma simplify_keeps_three_witness :
  simplify (G := geometry64) medium pentagon true = Some pentagon_cut
  /\ (3 <= length pentagon_cut)%nat.
Proof.
  split; [vm_compute; reflexivity|].
  apply (simplify_keeps_three (G := geometry64) medium pentagon pentagon_cut true).
  - cbn. lia.
  - vm_compute. reflexivity.
Defined.

(** [polyline_keeps_ends] for [arch]. *)
Lemma polyline_keeps_ends_witness :
  simplify (G := geometry64) coarse arch false = Some arch_flat
  /\ head arch_flat = head arch /\ last arch_flat = last arch.
Proof.
  split; [vm_compute; reflexivity|].
  apply (polyline_keeps_ends (G := geometry64) coarse arch arch_flat).
  - vm_compute. reflexivity.
  - cbn. lia.
  - vm_compute. reflexivity.
Defined.

(** [queue_head_least] in the second round of [arch]. *)
Lemma queue_head_least_witness :
  Forall (fun e : nat * Z => 39 < e.2 \/ (39 = e.2 /\ (1 < e.1)%nat))
    [(3%nat, 39); (4%nat, 9564); (0%nat, 2 ^ 63 - 1); (5%nat, 2 ^ 63 - 1)].
Proof.
  exact (queue_head_least (G := geometry64) coarse arch false arch_initial
           arch_started 1 39 _ (proj1 arch_first_round) (proj2 arch_first_round)
           eq_refl).
Defined.

End MoreScenarios.
